(** * Session layer of the ripple websocket client (websockets/remote.go)

    A shallow embedding of [Remote]: the write pump, the paginated
    drivers ([accountTx], [AccountLines], [AccountOffers],
    [streamLedgerData]), [SubmitBatch], and the goroutines of one
    session ([run], [reConnect], [Close], the pumps and the timeout
    watchers) as an executable labelled transition system over
    channels. *)

From stdpp Require Import gmap strings list.
From Stdlib Require Import NArith ZArith Lia.

#[local] Set Warnings "-clear-no-such-hyp".


(** A websocket payload, Go's [[]byte]. *)
Definition frame := string.

(** ** The write pump (remote.go, [writePump])

    The pump is run against the sequence of [select] cases that become
    ready; how a [WriteMessage] ends is part of the case.  The goroutine
    that calls [writePump] closes the connection once it returns
    ([defer r.ws.Close()]); that closes the socket and writes no frame,
    so it adds nothing to what the pump writes. *)

Module WritePump.
Section WritePump.
Context {Message : Type}.
(** [json.Marshal(message)]: the bytes, or [None] for an error. *)
Variable Marshal : Message -> option frame.

(** The three message types [r.ws.WriteMessage] is called with. *)
Inductive wire := TextMessage (b : frame) | PingMessage | CloseMessage.

(** What the pump does to the outside world, in order. *)
Inductive action := WriteMessage (w : wire) | Errorln.

Inductive pc := Selecting | Returned.

(** The case of the [select] that fires.  [werr] is whether the
    [WriteMessage] made in that case returns an error. *)
Inductive ready :=
| Outbound (message : Message) (werr : bool)
| OutboundClosed
| Tick (werr : bool).

(** One iteration of the [for { select {...} }] loop. *)
Definition iteration (e : ready) : list action * pc :=
  match e with
  | OutboundClosed => ([WriteMessage CloseMessage], Returned)
  | Outbound message werr =>
      match Marshal message with
      | None => ([Errorln], Selecting)
      | Some b =>
          if werr then ([WriteMessage (TextMessage b); Errorln], Returned)
          else ([WriteMessage (TextMessage b)], Selecting)
      end
  | Tick werr =>
      if werr then ([WriteMessage PingMessage; Errorln], Returned)
      else ([WriteMessage PingMessage], Selecting)
  end.

(** The pump run against a schedule of ready cases; events after the
    pump has returned are never looked at. *)
Fixpoint writePump (evs : list ready) : list action * pc :=
  match evs with
  | [] => ([], Selecting)
  | e :: evs' =>
      match iteration e with
      | (acts, Returned) => (acts, Returned)
      | (acts, Selecting) =>
          let '(acts', p) := writePump evs' in (acts ++ acts', p)
      end
  end.

(** The messages a schedule hands to the pump on [outbound], in order. *)
Definition handed (evs : list ready) : list Message :=
  omap (λ e, match e with Outbound message _ => Some message | _ => None end)
    evs.

(** The payloads of the text frames among what the pump did, in order. *)
Definition texts (acts : list action) : list frame :=
  omap (λ a, match a with WriteMessage (TextMessage b) => Some b | _ => None end)
    acts.

(** The event is one on which the pump stops because a send failed. *)
Definition send_failure (e : ready) : Prop :=
  match e with
  | Outbound message true => is_Some (Marshal message)
  | Tick true => True
  | _ => False
  end.

End WritePump.
End WritePump.

(** ** The paginated driver (remote.go, [accountTx] and [AccountTx]) *)

Module AccountTx.
Section AccountTx.
Context {Account Marker TransactionWithMetaData AccountTxCommand : Type}.
(** The constructor of commands.go: account, page size, marker of the
    previous page, ledger bounds. *)
Variable newAccountTxCommand :
  Account -> Z -> option Marker -> Z -> Z -> AccountTxCommand.

(** Modelled from the spec: the result type of commands.go, which is not
    among the sources; the items of a page and its continuation marker,
    the two fields [accountTx] reads. *)
Record AccountTxResult := {
  Transactions : list TransactionWithMetaData;
  Marker_ : option Marker;
}.

(** Modelled from the spec: the command type of commands.go, as far as
    the driver reads it once [Ready] fired, its terminal outcome slot:
    a failure reason or a decoded result. *)
Record completed := {
  CommandError : option string;
  Result : option AccountTxResult;
}.

Inductive status :=
| AwaitingReady      (* blocked in [<-cmd.Ready] *)
| BlockedOnSend      (* blocked in [c <- tx]: nobody receives *)
| Closed             (* returned; the deferred [close(c)] ran *)
| Panicked.          (* nil [cmd.Result] dereferenced *)

Record driver := {
  submitted : list AccountTxCommand;      (* sent on [r.outgoing], in order *)
  yielded : list TransactionWithMetaData; (* sent on [c], in order *)
  state : status;
}.

Variables (account : Account) (pageSize minLedger maxLedger : Z).

(** The command of one page. *)
Definition command (marker : option Marker) : AccountTxCommand :=
  newAccountTxCommand account pageSize marker minLedger maxLedger.

(** The [for] loop from the command built with [marker] on.  [replies]
    is what the session makes of the successive commands; [demand] is
    the number of receives the consumer performs on [c]. *)
Fixpoint loop (marker : option Marker) (replies : list completed)
    (demand : nat) : driver :=
  let cmd := command marker in
  match replies with
  | [] => {| submitted := [cmd]; yielded := []; state := AwaitingReady |}
  | r :: replies' =>
      match CommandError r with
      | Some _ => {| submitted := [cmd]; yielded := []; state := Closed |}
      | None =>
          match Result r with
          | None => {| submitted := [cmd]; yielded := []; state := Panicked |}
          | Some res =>
              let txs := Transactions res in
              if (demand <? length txs)%nat then
                {| submitted := [cmd]; yielded := take demand txs;
                   state := BlockedOnSend |}
              else
                match Marker_ res with
                | None => {| submitted := [cmd]; yielded := txs; state := Closed |}
                | Some m =>
                    let d := loop (Some m) replies' (demand - length txs) in
                    {| submitted := cmd :: submitted d;
                       yielded := txs ++ yielded d;
                       state := state d |}
                end
          end
      end
  end.

(** [accountTx]: the first command carries a nil marker. *)
Definition accountTx := loop None.

(** A page that decodes, with its transactions and marker. *)
Definition page (txs : list TransactionWithMetaData) (m : option Marker)
    : completed :=
  {| CommandError := None;
     Result := Some {| Transactions := txs; Marker_ := m |} |}.

Definition more (p : list TransactionWithMetaData * Marker) : completed :=
  page p.1 (Some p.2).

(** The transactions of pages that all carry a marker, in page order. *)
Definition items (pages : list (list TransactionWithMetaData * Marker)) :=
  concat pages.*1.

(** The marker each command after the first one is built with. *)
Definition markers (pages : list (list TransactionWithMetaData * Marker)) :=
  Some <$> pages.*2.

End AccountTx.
End AccountTx.

(** ** Batched submission (remote.go, [SubmitBatch]) *)

Module SubmitBatch.

(** [fmt.Sprintf("%X", raw)]: two upper-case hex digits per byte. *)
Definition hexdigit (n : N) : Ascii.ascii :=
  Ascii.ascii_of_N (if (n <? 10)%N then 48 + n else 55 + n)%N.

Fixpoint sprintfX (raw : list Byte.byte) : string :=
  match raw with
  | [] => EmptyString
  | b :: raw' =>
      let n := Byte.to_N b in
      String (hexdigit (n / 16)) (String (hexdigit (n mod 16)) (sprintfX raw'))
  end.

Section SubmitBatch.
Context {Transaction SubmitResult error : Type}.
(** [data.Raw(tx)]: the serialized transaction or an error. *)
Variable Raw : Transaction -> error + list Byte.byte.

(** Modelled from the spec: the [SubmitCommand] of commands.go, as far as
    [SubmitBatch] fills it. *)
Record SubmitCommand := { TxBlob : string }.

(** How the session completes a command.  [Result] is only ever written
    by the decode of the reply in [run]; the timeout and the teardown
    fail commands that are still pending, hence never decoded. *)
Inductive completion :=
| CompleteDone (Result : option SubmitResult)
| CompleteFailDecode (Result : option SubmitResult)
| CompleteFailTimeout
| CompleteFailDisconnect.

Definition Result (c : completion) : option SubmitResult :=
  match c with
  | CompleteDone r | CompleteFailDecode r => r
  | CompleteFailTimeout | CompleteFailDisconnect => None
  end.

(** First loop: serialize and enqueue, stopping at the first error. *)
Fixpoint enqueue (txs : list Transaction) : list SubmitCommand * option error :=
  match txs with
  | [] => ([], None)
  | tx :: txs' =>
      match Raw tx with
      | inl err => ([], Some err)
      | inr raw =>
          let '(cmds, e) := enqueue txs' in
          ({| TxBlob := sprintfX raw |} :: cmds, e)
      end
  end.

Record outcome := {
  enqueued : list SubmitCommand;   (* sent on [r.outgoing] *)
  (* [None] while blocked in [<-commands[i].Ready]; else the pair
     returned, a nil slice being [None] *)
  returned : option (option (list (option SubmitResult)) * option error);
}.

(** [completions] lists, per command index, how the session completes
    it; a command without entry never becomes ready. *)
Definition SubmitBatch (txs : list Transaction) (completions : list completion)
    : outcome :=
  match enqueue txs with
  | (cmds, Some err) => {| enqueued := cmds; returned := Some (None, Some err) |}
  | (cmds, None) =>
      {| enqueued := cmds;
         returned :=
           if (length completions <? length cmds)%nat then None
           else Some (Some (Result <$> take (length cmds) completions), None) |}
  end.

End SubmitBatch.
End SubmitBatch.

(** ** The marker-following calls (remote.go, [AccountLines] and
       [AccountOffers])

    The two functions are the same loop, over lines sorted by
    [SortByCurrencyAmount] and over offers sorted by [sort.Sort]. *)

Module AccountLines.
Section AccountLines.
Context {Account Hash256 Item Index Rest error : Type}.
(** [cmd.Result.Lines.SortByCurrencyAmount()], [sort.Sort(cmd.Result.Offers)]:
    the slice afterwards. *)
Variable sort : list Item -> list Item.

(** [ledgerIndex interface{}]: the value the caller passed, or the
    [uint32] the loop stores in it. *)
Inductive interface := Given (v : Index) | Uint32 (n : N).

(** The fields of [AccountLinesResult] and [AccountOffersResult] (types
    of commands.go) the loop reads and writes; [rest] stands for the
    others. *)
Record Result := {
  LedgerSequence : option N;
  Marker_ : option Hash256;
  Items : list Item;          (* [Lines], [Offers] *)
  rest : Rest;
}.

(** The command as the loop fills it; [Command_] is the name
    [newCommand] is called with. *)
Record Command := {
  Command_ : string;
  Account_ : Account;
  Limit : N;
  Marker : option Hash256;
  LedgerIndex : interface;
}.

(** The outcome slot of a command once [Ready] fired. *)
Record completed := {
  CommandError : option error;
  Result_ : option Result;
}.

Inductive status :=
| AwaitingReady                  (* blocked in [<-cmd.Ready] *)
| Returned (result : option Result) (err : option error)
| Panicked.                      (* nil [cmd.Result] dereferenced *)

Record call := {
  submitted : list Command;      (* sent on [r.outgoing], in order *)
  state : status;
}.

Variables (name : string) (account : Account).

Definition command (marker : option Hash256) (ledgerIndex : interface)
    : Command :=
  {| Command_ := name; Account_ := account; Limit := 400; Marker := marker;
     LedgerIndex := ledgerIndex |}.

(** [if cmd.Result.LedgerSequence != nil { ledgerIndex = *cmd.Result.LedgerSequence }] *)
Definition pin (ledgerIndex : interface) (sequence : option N) : interface :=
  match sequence with
  | Some n => Uint32 n
  | None => ledgerIndex
  end.

(** The [for] loop, from the state of its three variables on.
    [replies] is what the session makes of the successive commands. *)
Fixpoint loop (items : list Item) (marker : option Hash256)
    (ledgerIndex : interface) (replies : list completed) : call :=
  let cmd := command marker ledgerIndex in
  match replies with
  | [] => {| submitted := [cmd]; state := AwaitingReady |}
  | r :: replies' =>
      match CommandError r with
      | Some err => {| submitted := [cmd]; state := Returned None (Some err) |}
      | None =>
          match Result_ r with
          | None => {| submitted := [cmd]; state := Panicked |}
          | Some res =>
              match Marker_ res with
              | Some m =>
                  let d := loop (items ++ Items res) (Some m)
                             (pin ledgerIndex (LedgerSequence res)) replies' in
                  {| submitted := cmd :: submitted d; state := state d |}
              | None =>
                  {| submitted := [cmd];
                     state :=
                       Returned
                         (Some {| LedgerSequence := LedgerSequence res;
                                  Marker_ := Marker_ res;
                                  Items := sort (items ++ Items res);
                                  rest := rest res |})
                         None |}
              end
          end
      end
  end.

(** A page that decodes and carries a marker. *)
Record page := {
  page_items : list Item;
  page_marker : Hash256;
  page_sequence : option N;
  page_rest : Rest;
}.

Definition more (p : page) : completed :=
  {| CommandError := None;
     Result_ := Some {| LedgerSequence := page_sequence p;
                        Marker_ := Some (page_marker p);
                        Items := page_items p; rest := page_rest p |} |}.

(** The last page: it decodes and carries no marker. *)
Definition final (items : list Item) (sequence : option N) (rst : Rest)
    : completed :=
  {| CommandError := None;
     Result_ := Some {| LedgerSequence := sequence; Marker_ := None;
                        Items := items; rest := rst |} |}.

(** The last ledger sequence reported among [sequences], or else the
    ledger index the caller passed. *)
Definition reported (ledgerIndex : interface) (sequences : list (option N))
    : interface :=
  from_option Uint32 ledgerIndex (last (omap id sequences)).

End AccountLines.

Definition AccountLines {Account Hash256 AccountLine Index Rest error}
    (SortByCurrencyAmount : list AccountLine -> list AccountLine)
    (account : Account) (ledgerIndex : Index)
    : list (@completed Hash256 AccountLine Rest error) -> call :=
  loop SortByCurrencyAmount "account_lines" account [] None (Given ledgerIndex).

Definition AccountOffers {Account Hash256 AccountOffer Index Rest error}
    (Sort : list AccountOffer -> list AccountOffer)
    (account : Account) (ledgerIndex : Index)
    : list (@completed Hash256 AccountOffer Rest error) -> call :=
  loop Sort "account_offers" account [] None (Given ledgerIndex).

End AccountLines.

(** ** The ledger stream (remote.go, [streamLedgerData] and
       [StreamLedgerData]) *)

Module StreamLedgerData.

(** [hex.DecodeString]: two digits of either case per byte; an odd
    length or another character is an error. *)
Definition fromHexChar (c : Ascii.ascii) : option N :=
  let n := Ascii.N_of_ascii c in
  if ((48 <=? n) && (n <=? 57))%N then Some (n - 48)%N
  else if ((97 <=? n) && (n <=? 102))%N then Some (n - 87)%N
  else if ((65 <=? n) && (n <=? 70))%N then Some (n - 55)%N
  else None.

Fixpoint DecodeString (s : string) : option (list Byte.byte) :=
  match s with
  | EmptyString => Some []
  | String _ EmptyString => None
  | String a (String b s') =>
      match fromHexChar a, fromHexChar b with
      | Some hi, Some lo =>
          match Byte.of_N (hi * 16 + lo), DecodeString s' with
          | Some x, Some bytes => Some (x :: bytes)
          | _, _ => None
          end
      | _, _ => None
      end
  end.

Section StreamLedgerData.
Context {Ledger Hash256 LedgerEntry LedgerDataCommand error : Type}.
(** The constructor of commands.go: the ledger and the marker of the
    page before. *)
Variable newBinaryLedgerDataCommand :
  Ledger -> option Hash256 -> LedgerDataCommand.
(** [data.ReadLedgerEntry(bytes.NewReader(b), data.Hash256{})]: the entry
    it returns (an interface value, nil or not) and its error. *)
Variable ReadLedgerEntry :
  list Byte.byte -> option LedgerEntry * option error.

(** The fields of an element of [cmd.Result.State] and of the result
    (types of commands.go) the driver reads. *)
Record LedgerState := { Data : string; Index : string }.

Record LedgerDataResult := {
  State : list LedgerState;
  Marker_ : option Hash256;
}.

Record completed := {
  CommandError : option error;
  Result : option LedgerDataResult;
}.

Inductive status :=
| AwaitingReady      (* blocked in [<-cmd.Ready] *)
| BlockedOnSend      (* blocked in [c <- les]: nobody receives *)
| Closed             (* returned; the deferred [close(c)] ran *)
| Aborted            (* [hex.DecodeString] failed: the driver leaves
                        through [glog.Errorln(cmd.Error())], a call of
                        commands.go on a command without error, and
                        the deferred [close(c)] *)
| Panicked.          (* nil [cmd.Result] dereferenced *)

Record driver := {
  submitted : list LedgerDataCommand;          (* sent on [r.outgoing] *)
  yielded : list (list (option LedgerEntry));  (* sent on [c] *)
  state : status;
}.

(** The inner [for i, state := range cmd.Result.State]: the slots of
    [les] from [i] on, or [None] when the function returns from inside
    the loop.  A slot holds what [ReadLedgerEntry] returned as entry,
    with or without error; the logging apart, [continue] changes
    nothing at the end of the body. *)
Fixpoint entries (states : list LedgerState)
    : option (list (option LedgerEntry)) :=
  match states with
  | [] => Some []
  | st :: states' =>
      match DecodeString (Data st +:+ Index st) with
      | None => None
      | Some b =>
          match entries states' with
          | None => None
          | Some les => Some ((ReadLedgerEntry b).1 :: les)
          end
      end
  end.

Variable ledger : Ledger.

(** The outer [for] loop from the command built with [marker] on;
    [demand] is the number of receives the consumer performs on [c]. *)
Fixpoint loop (marker : option Hash256) (replies : list completed)
    (demand : nat) : driver :=
  let cmd := newBinaryLedgerDataCommand ledger marker in
  match replies with
  | [] => {| submitted := [cmd]; yielded := []; state := AwaitingReady |}
  | r :: replies' =>
      match CommandError r with
      | Some _ => {| submitted := [cmd]; yielded := []; state := Closed |}
      | None =>
          match Result r with
          | None => {| submitted := [cmd]; yielded := []; state := Panicked |}
          | Some res =>
              match entries (State res) with
              | None => {| submitted := [cmd]; yielded := []; state := Aborted |}
              | Some les =>
                  match demand with
                  | 0 => {| submitted := [cmd]; yielded := [];
                            state := BlockedOnSend |}
                  | S demand' =>
                      match Marker_ res with
                      | None => {| submitted := [cmd]; yielded := [les];
                                   state := Closed |}
                      | Some m =>
                          let d := loop (Some m) replies' demand' in
                          {| submitted := cmd :: submitted d;
                             yielded := les :: yielded d;
                             state := state d |}
                      end
                  end
              end
          end
      end
  end.

(** [streamLedgerData]: the first command carries a nil marker. *)
Definition streamLedgerData := loop None.

(** A reply that decodes, with its states and marker. *)
Definition page (states : list LedgerState) (m : option Hash256) : completed :=
  {| CommandError := None;
     Result := Some {| State := states; Marker_ := m |} |}.

Definition more (p : list LedgerState * Hash256) : completed :=
  page p.1 (Some p.2).

End StreamLedgerData.
End StreamLedgerData.

(** ** The session: the goroutines and channels of one [Remote]

    A state holds the fields of [Remote], the locals of the [run] of the
    current connection, and where each goroutine stands.  A transition
    is one channel operation (or one access to [r.shutdown]) of one
    goroutine together with the local code that follows it up to the
    next such operation; a send and a receive on an unbuffered channel
    are one transition of the two goroutines that meet; the iteration
    of the write pump that follows its receive (serialize, write) is
    part of the hand-off, so how the writes of the pumps of two
    connections interleave is not modelled.  The choice Go
    makes among the ready cases of a [select], the scheduling, the
    timers and the peer are the labels of the transitions: a schedule is
    a list of labels.  [Done] and [Fail], which are methods of
    commands.go, are recorded as calls. *)

Module Session.

(** Modelled from the spec: the envelope header of commands.go,
    [Command], which every inbound frame is decoded into; of its fields,
    the correlation id (a [uint64], used as a key only) and the type
    discriminant, the two [run] reads. *)
Record Command := { Id : N; Type_ : string }.

(** [var response Command]: the zero value. *)
Definition zero : Command := {| Id := 0; Type_ := "" |}.

Inductive watcher_pc :=
| Waiting     (* in the [select] on the canceller and the timer *)
| Firing      (* blocked in [timeout <- commandID] *)
| Gone.       (* returned *)

(** A goroutine running [commandTimeoutFunc].  Channels are named by
    numbers: the canceller by the order of its [make], the [timeout]
    channel by the generation of the [run] that made it. *)
Record watcher := {
  commandID : N;
  timeoutCanceller : nat;
  timeout : nat;
  at_ : watcher_pc;
}.

Inductive reader_pc :=
| Reading                     (* in [r.ws.ReadMessage] *)
| Forwarding (message : frame) (* blocked in [inbound <- message] *)
| ReaderReturned.             (* returned; [inbound] closed *)

Inductive close_pc :=
| NotCalled
| Closing      (* [r.shutdown = true] done *)
| Ranging      (* in [for _ = range r.Incoming] *)
| CloseReturned.

Section Session.
Context {Syncer StreamMsg : Type}.

(** [reflect.ValueOf(command).Elem().FieldByName("Id").Uint()] *)
Variable SyncerId : Syncer -> N.
(** [json.Unmarshal(in, &response)]: the header variable afterwards,
    and whether the error is nil.  [response] lives across iterations,
    so the old value is an input. *)
Variable unmarshalCommand : frame -> Command -> Command * bool.
(** [streamMessageFactory[response.Type]] followed by
    [json.Unmarshal(in, &cmd)] on what the factory makes. *)
Variable streamMessageFactory : string -> option (frame -> option StreamMsg).
(** [json.Unmarshal(in, &cmd)] on a pending command. *)
Variable unmarshalSyncer : frame -> Syncer -> Syncer * bool.
(** [json.Marshal(message)] in the write pump. *)
Variable Marshal : Syncer -> option frame.

(** The calls [run] and [reConnect] make on commands and on the log. *)
Inductive event :=
| Done (cmd : Syncer)
| Fail (cmd : Syncer) (message : string)
| Errorln
| Errorf (response : Command).

(** Where the goroutine that runs [run], then [reConnect], then [run]
    again, stands. *)
Inductive loop_pc :=
| Select                                             (* main [select] *)
| Handoff (id : N) (command : Syncer) (canceller : nat) (* inner [select] *)
| SendIncoming (cmd : StreamMsg)                     (* [r.Incoming <- cmd] *)
| Cancelling (id : N) (cmd : Syncer) (in_ : frame) (canceller : nat)
                                          (* [canceller <- struct{}{}] *)
| Draining                                  (* [for range inbound] *)
| Reconnecting                              (* [select] of [reConnect] *)
| Exited.

Record session := {
  (* the fields of [Remote] *)
  Incoming : list StreamMsg;
  Incoming_closed : bool;
  outgoing : list Syncer;
  outgoing_closed : bool;
  reConn : bool;
  shutdown : bool;
  (* the locals of the current [run] *)
  generation : nat;
  outbound_closed : bool;
  inbound_closed : bool;
  writePumpStopped : bool;
  pending : gmap N Syncer;
  timeoutCancellers : gmap N nat;
  response : Command;
  (* the goroutines *)
  loop : loop_pc;
  writers : list WritePump.pc;   (* one write pump per generation *)
  reader : reader_pc;
  watchers : list watcher;
  closer : close_pc;
  (* the connection and the log *)
  ws_open : bool;
  written : list WritePump.action;
  cancellers_made : nat;
  events : list event;
}.

(** Assignments to one field. *)
Definition set_Incoming (v : list StreamMsg) (s : session) : session :=
  {| Incoming := v; Incoming_closed := Incoming_closed s;
     outgoing := outgoing s; outgoing_closed := outgoing_closed s;
     reConn := reConn s; shutdown := shutdown s;
     generation := generation s; outbound_closed := outbound_closed s;
     inbound_closed := inbound_closed s;
     writePumpStopped := writePumpStopped s; pending := pending s;
     timeoutCancellers := timeoutCancellers s; response := response s;
     loop := loop s; writers := writers s; reader := reader s;
     watchers := watchers s; closer := closer s; ws_open := ws_open s;
     written := written s; cancellers_made := cancellers_made s;
     events := events s |}.
Definition set_Incoming_closed (v : bool) (s : session) : session :=
  {| Incoming := Incoming s; Incoming_closed := v; outgoing := outgoing s;
     outgoing_closed := outgoing_closed s; reConn := reConn s;
     shutdown := shutdown s; generation := generation s;
     outbound_closed := outbound_closed s;
     inbound_closed := inbound_closed s;
     writePumpStopped := writePumpStopped s; pending := pending s;
     timeoutCancellers := timeoutCancellers s; response := response s;
     loop := loop s; writers := writers s; reader := reader s;
     watchers := watchers s; closer := closer s; ws_open := ws_open s;
     written := written s; cancellers_made := cancellers_made s;
     events := events s |}.
Definition set_outgoing (v : list Syncer) (s : session) : session :=
  {| Incoming := Incoming s; Incoming_closed := Incoming_closed s;
     outgoing := v; outgoing_closed := outgoing_closed s;
     reConn := reConn s; shutdown := shutdown s;
     generation := generation s; outbound_closed := outbound_closed s;
     inbound_closed := inbound_closed s;
     writePumpStopped := writePumpStopped s; pending := pending s;
     timeoutCancellers := timeoutCancellers s; response := response s;
     loop := loop s; writers := writers s; reader := reader s;
     watchers := watchers s; closer := closer s; ws_open := ws_open s;
     written := written s; cancellers_made := cancellers_made s;
     events := events s |}.
Definition set_outgoing_closed (v : bool) (s : session) : session :=
  {| Incoming := Incoming s; Incoming_closed := Incoming_closed s;
     outgoing := outgoing s; outgoing_closed := v; reConn := reConn s;
     shutdown := shutdown s; generation := generation s;
     outbound_closed := outbound_closed s;
     inbound_closed := inbound_closed s;
     writePumpStopped := writePumpStopped s; pending := pending s;
     timeoutCancellers := timeoutCancellers s; response := response s;
     loop := loop s; writers := writers s; reader := reader s;
     watchers := watchers s; closer := closer s; ws_open := ws_open s;
     written := written s; cancellers_made := cancellers_made s;
     events := events s |}.
Definition set_shutdown (v : bool) (s : session) : session :=
  {| Incoming := Incoming s; Incoming_closed := Incoming_closed s;
     outgoing := outgoing s; outgoing_closed := outgoing_closed s;
     reConn := reConn s; shutdown := v; generation := generation s;
     outbound_closed := outbound_closed s;
     inbound_closed := inbound_closed s;
     writePumpStopped := writePumpStopped s; pending := pending s;
     timeoutCancellers := timeoutCancellers s; response := response s;
     loop := loop s; writers := writers s; reader := reader s;
     watchers := watchers s; closer := closer s; ws_open := ws_open s;
     written := written s; cancellers_made := cancellers_made s;
     events := events s |}.
Definition set_generation (v : nat) (s : session) : session :=
  {| Incoming := Incoming s; Incoming_closed := Incoming_closed s;
     outgoing := outgoing s; outgoing_closed := outgoing_closed s;
     reConn := reConn s; shutdown := shutdown s; generation := v;
     outbound_closed := outbound_closed s;
     inbound_closed := inbound_closed s;
     writePumpStopped := writePumpStopped s; pending := pending s;
     timeoutCancellers := timeoutCancellers s; response := response s;
     loop := loop s; writers := writers s; reader := reader s;
     watchers := watchers s; closer := closer s; ws_open := ws_open s;
     written := written s; cancellers_made := cancellers_made s;
     events := events s |}.
Definition set_outbound_closed (v : bool) (s : session) : session :=
  {| Incoming := Incoming s; Incoming_closed := Incoming_closed s;
     outgoing := outgoing s; outgoing_closed := outgoing_closed s;
     reConn := reConn s; shutdown := shutdown s;
     generation := generation s; outbound_closed := v;
     inbound_closed := inbound_closed s;
     writePumpStopped := writePumpStopped s; pending := pending s;
     timeoutCancellers := timeoutCancellers s; response := response s;
     loop := loop s; writers := writers s; reader := reader s;
     watchers := watchers s; closer := closer s; ws_open := ws_open s;
     written := written s; cancellers_made := cancellers_made s;
     events := events s |}.
Definition set_inbound_closed (v : bool) (s : session) : session :=
  {| Incoming := Incoming s; Incoming_closed := Incoming_closed s;
     outgoing := outgoing s; outgoing_closed := outgoing_closed s;
     reConn := reConn s; shutdown := shutdown s;
     generation := generation s; outbound_closed := outbound_closed s;
     inbound_closed := v; writePumpStopped := writePumpStopped s;
     pending := pending s; timeoutCancellers := timeoutCancellers s;
     response := response s; loop := loop s; writers := writers s;
     reader := reader s; watchers := watchers s; closer := closer s;
     ws_open := ws_open s; written := written s;
     cancellers_made := cancellers_made s; events := events s |}.
Definition set_writePumpStopped (v : bool) (s : session) : session :=
  {| Incoming := Incoming s; Incoming_closed := Incoming_closed s;
     outgoing := outgoing s; outgoing_closed := outgoing_closed s;
     reConn := reConn s; shutdown := shutdown s;
     generation := generation s; outbound_closed := outbound_closed s;
     inbound_closed := inbound_closed s; writePumpStopped := v;
     pending := pending s; timeoutCancellers := timeoutCancellers s;
     response := response s; loop := loop s; writers := writers s;
     reader := reader s; watchers := watchers s; closer := closer s;
     ws_open := ws_open s; written := written s;
     cancellers_made := cancellers_made s; events := events s |}.
Definition set_pending (v : gmap N Syncer) (s : session) : session :=
  {| Incoming := Incoming s; Incoming_closed := Incoming_closed s;
     outgoing := outgoing s; outgoing_closed := outgoing_closed s;
     reConn := reConn s; shutdown := shutdown s;
     generation := generation s; outbound_closed := outbound_closed s;
     inbound_closed := inbound_closed s;
     writePumpStopped := writePumpStopped s; pending := v;
     timeoutCancellers := timeoutCancellers s; response := response s;
     loop := loop s; writers := writers s; reader := reader s;
     watchers := watchers s; closer := closer s; ws_open := ws_open s;
     written := written s; cancellers_made := cancellers_made s;
     events := events s |}.
Definition set_timeoutCancellers (v : gmap N nat) (s : session) : session :=
  {| Incoming := Incoming s; Incoming_closed := Incoming_closed s;
     outgoing := outgoing s; outgoing_closed := outgoing_closed s;
     reConn := reConn s; shutdown := shutdown s;
     generation := generation s; outbound_closed := outbound_closed s;
     inbound_closed := inbound_closed s;
     writePumpStopped := writePumpStopped s; pending := pending s;
     timeoutCancellers := v; response := response s; loop := loop s;
     writers := writers s; reader := reader s; watchers := watchers s;
     closer := closer s; ws_open := ws_open s; written := written s;
     cancellers_made := cancellers_made s; events := events s |}.
Definition set_response (v : Command) (s : session) : session :=
  {| Incoming := Incoming s; Incoming_closed := Incoming_closed s;
     outgoing := outgoing s; outgoing_closed := outgoing_closed s;
     reConn := reConn s; shutdown := shutdown s;
     generation := generation s; outbound_closed := outbound_closed s;
     inbound_closed := inbound_closed s;
     writePumpStopped := writePumpStopped s; pending := pending s;
     timeoutCancellers := timeoutCancellers s; response := v;
     loop := loop s; writers := writers s; reader := reader s;
     watchers := watchers s; closer := closer s; ws_open := ws_open s;
     written := written s; cancellers_made := cancellers_made s;
     events := events s |}.
Definition set_loop (v : loop_pc) (s : session) : session :=
  {| Incoming := Incoming s; Incoming_closed := Incoming_closed s;
     outgoing := outgoing s; outgoing_closed := outgoing_closed s;
     reConn := reConn s; shutdown := shutdown s;
     generation := generation s; outbound_closed := outbound_closed s;
     inbound_closed := inbound_closed s;
     writePumpStopped := writePumpStopped s; pending := pending s;
     timeoutCancellers := timeoutCancellers s; response := response s;
     loop := v; writers := writers s; reader := reader s;
     watchers := watchers s; closer := closer s; ws_open := ws_open s;
     written := written s; cancellers_made := cancellers_made s;
     events := events s |}.
Definition set_writers (v : list WritePump.pc) (s : session) : session :=
  {| Incoming := Incoming s; Incoming_closed := Incoming_closed s;
     outgoing := outgoing s; outgoing_closed := outgoing_closed s;
     reConn := reConn s; shutdown := shutdown s;
     generation := generation s; outbound_closed := outbound_closed s;
     inbound_closed := inbound_closed s;
     writePumpStopped := writePumpStopped s; pending := pending s;
     timeoutCancellers := timeoutCancellers s; response := response s;
     loop := loop s; writers := v; reader := reader s;
     watchers := watchers s; closer := closer s; ws_open := ws_open s;
     written := written s; cancellers_made := cancellers_made s;
     events := events s |}.
Definition set_reader (v : reader_pc) (s : session) : session :=
  {| Incoming := Incoming s; Incoming_closed := Incoming_closed s;
     outgoing := outgoing s; outgoing_closed := outgoing_closed s;
     reConn := reConn s; shutdown := shutdown s;
     generation := generation s; outbound_closed := outbound_closed s;
     inbound_closed := inbound_closed s;
     writePumpStopped := writePumpStopped s; pending := pending s;
     timeoutCancellers := timeoutCancellers s; response := response s;
     loop := loop s; writers := writers s; reader := v;
     watchers := watchers s; closer := closer s; ws_open := ws_open s;
     written := written s; cancellers_made := cancellers_made s;
     events := events s |}.
Definition set_watchers (v : list watcher) (s : session) : session :=
  {| Incoming := Incoming s; Incoming_closed := Incoming_closed s;
     outgoing := outgoing s; outgoing_closed := outgoing_closed s;
     reConn := reConn s; shutdown := shutdown s;
     generation := generation s; outbound_closed := outbound_closed s;
     inbound_closed := inbound_closed s;
     writePumpStopped := writePumpStopped s; pending := pending s;
     timeoutCancellers := timeoutCancellers s; response := response s;
     loop := loop s; writers := writers s; reader := reader s;
     watchers := v; closer := closer s; ws_open := ws_open s;
     written := written s; cancellers_made := cancellers_made s;
     events := events s |}.
Definition set_closer (v : close_pc) (s : session) : session :=
  {| Incoming := Incoming s; Incoming_closed := Incoming_closed s;
     outgoing := outgoing s; outgoing_closed := outgoing_closed s;
     reConn := reConn s; shutdown := shutdown s;
     generation := generation s; outbound_closed := outbound_closed s;
     inbound_closed := inbound_closed s;
     writePumpStopped := writePumpStopped s; pending := pending s;
     timeoutCancellers := timeoutCancellers s; response := response s;
     loop := loop s; writers := writers s; reader := reader s;
     watchers := watchers s; closer := v; ws_open := ws_open s;
     written := written s; cancellers_made := cancellers_made s;
     events := events s |}.
Definition set_ws_open (v : bool) (s : session) : session :=
  {| Incoming := Incoming s; Incoming_closed := Incoming_closed s;
     outgoing := outgoing s; outgoing_closed := outgoing_closed s;
     reConn := reConn s; shutdown := shutdown s;
     generation := generation s; outbound_closed := outbound_closed s;
     inbound_closed := inbound_closed s;
     writePumpStopped := writePumpStopped s; pending := pending s;
     timeoutCancellers := timeoutCancellers s; response := response s;
     loop := loop s; writers := writers s; reader := reader s;
     watchers := watchers s; closer := closer s; ws_open := v;
     written := written s; cancellers_made := cancellers_made s;
     events := events s |}.
Definition set_written (v : list WritePump.action) (s : session) : session :=
  {| Incoming := Incoming s; Incoming_closed := Incoming_closed s;
     outgoing := outgoing s; outgoing_closed := outgoing_closed s;
     reConn := reConn s; shutdown := shutdown s;
     generation := generation s; outbound_closed := outbound_closed s;
     inbound_closed := inbound_closed s;
     writePumpStopped := writePumpStopped s; pending := pending s;
     timeoutCancellers := timeoutCancellers s; response := response s;
     loop := loop s; writers := writers s; reader := reader s;
     watchers := watchers s; closer := closer s; ws_open := ws_open s;
     written := v; cancellers_made := cancellers_made s;
     events := events s |}.
Definition set_cancellers_made (v : nat) (s : session) : session :=
  {| Incoming := Incoming s; Incoming_closed := Incoming_closed s;
     outgoing := outgoing s; outgoing_closed := outgoing_closed s;
     reConn := reConn s; shutdown := shutdown s;
     generation := generation s; outbound_closed := outbound_closed s;
     inbound_closed := inbound_closed s;
     writePumpStopped := writePumpStopped s; pending := pending s;
     timeoutCancellers := timeoutCancellers s; response := response s;
     loop := loop s; writers := writers s; reader := reader s;
     watchers := watchers s; closer := closer s; ws_open := ws_open s;
     written := written s; cancellers_made := v; events := events s |}.
Definition set_events (v : list event) (s : session) : session :=
  {| Incoming := Incoming s; Incoming_closed := Incoming_closed s;
     outgoing := outgoing s; outgoing_closed := outgoing_closed s;
     reConn := reConn s; shutdown := shutdown s;
     generation := generation s; outbound_closed := outbound_closed s;
     inbound_closed := inbound_closed s;
     writePumpStopped := writePumpStopped s; pending := pending s;
     timeoutCancellers := timeoutCancellers s; response := response s;
     loop := loop s; writers := writers s; reader := reader s;
     watchers := watchers s; closer := closer s; ws_open := ws_open s;
     written := written s; cancellers_made := cancellers_made s;
     events := v |}.

(** *** [run] *)

(** [return] from [run]: the deferred function up to its blocking
    [for range inbound].  (Go ranges over [pending] in an unspecified
    order; the order of [map_to_list] stands for it.) *)
Definition run_return (s : session) : session :=
  set_loop Draining
    (set_events
       (events s ++
        ((λ c, Fail c "ws: server disconnected") <$> (map_to_list (pending s)).*2))
       (set_outbound_closed true s)).

(** The end of the deferred function, once [inbound] is closed. *)
Definition run_exit (s : session) : session :=
  if reConn s && negb (shutdown s)
  then set_loop Reconnecting s               (* [go r.reConnect()] *)
  else set_loop Exited (set_Incoming_closed true s).

(** [go r.run()]: fresh channels and tables, and the two pumps. *)
Definition run_start (gen : nat) (old : list WritePump.pc) (s : session)
    : session :=
  set_loop Select
    (set_response zero
       (set_timeoutCancellers ∅
          (set_pending ∅
             (set_writePumpStopped false
                (set_inbound_closed false
                   (set_outbound_closed false
                      (set_ws_open true
                         (set_reader Reading
                            (set_writers (old ++ [WritePump.Selecting])
                               (set_generation gen s)))))))))).

(** [json.Unmarshal(in, &cmd)] and the completion that follows. *)
Definition complete (in_ : frame) (cmd : Syncer) (s : session) : session :=
  let '(cmd', ok) := unmarshalSyncer in_ cmd in
  set_loop Select
    (set_events
       (events s ++
        if ok then [Done cmd']
        else [Errorln; Fail cmd' "error occured while unmarshalling"])
       s).

(** [case in, ok := <-inbound] with [ok] true. *)
Definition on_inbound (in_ : frame) (s : session) : session :=
  let '(resp, ok) := unmarshalCommand in_ (response s) in
  let s := set_response resp s in
  if negb ok then set_events (events s ++ [Errorln]) s
  else
    match streamMessageFactory (Type_ resp) with
    | Some factory =>
        match factory in_ with
        | None => set_events (events s ++ [Errorln]) s
        | Some cmd => set_loop (SendIncoming cmd) s
        end
    | None =>
        match pending s !! Id resp with
        | None => set_events (events s ++ [Errorf resp]) s
        | Some cmd =>
            let s := set_pending (delete (Id resp) (pending s)) s in
            match timeoutCancellers s !! Id resp with
            | Some canceller =>
                set_loop (Cancelling (Id resp) cmd in_ canceller) s
            | None => complete in_ cmd s
            end
        end
    end.

(** After [canceller <- struct{}{}] went through. *)
Definition on_cancelled (id : N) (cmd : Syncer) (in_ : frame) (s : session)
    : session :=
  complete in_ cmd (set_timeoutCancellers (delete id (timeoutCancellers s)) s).

(** [case id := <-timeout]. *)
Definition on_timeout (id : N) (s : session) : session :=
  match pending s !! id with
  | Some cmd =>
      run_return
        (set_events (events s ++ [Fail cmd "command timed out"])
           (set_pending (delete id (pending s)) s))
  | None => set_timeoutCancellers (delete id (timeoutCancellers s)) s
  end.

(** [case command, ok := <-r.outgoing] with [ok] true, up to the inner
    [select]. *)
Definition on_command (command : Syncer) (s : session) : session :=
  let id := SyncerId command in
  let canceller := cancellers_made s in
  set_loop (Handoff id command canceller)
    (set_cancellers_made (S canceller)
       (set_timeoutCancellers (<[id:=canceller]> (timeoutCancellers s))
          (set_pending (<[id:=command]> (pending s)) s))).

(** *** The write pumps *)

(** Pump [i] returns: [close(writePumpStopped)] and [r.ws.Close()] of its
    own generation. *)
Definition pump_returns (i : nat) (s : session) : session :=
  let s := set_writers (<[i:=WritePump.Returned]> (writers s)) s in
  if (i =? generation s)%nat
  then set_ws_open false (set_writePumpStopped true s)
  else s.

(** Pump [i] runs one iteration of its loop on the ready case [e]. *)
Definition pump (i : nat) (e : WritePump.ready) (s : session) : session :=
  let '(acts, p) := WritePump.iteration Marshal e in
  let s := set_written (written s ++ acts) s in
  match p with
  | WritePump.Returned => pump_returns i s
  | WritePump.Selecting => s
  end.

(** *** The transitions *)

Inductive label :=
| Submit (cmd : Syncer)       (* a caller: [r.outgoing <- cmd] *)
| Receive                     (* the user: [<-r.Incoming] *)
| RecvOutgoing                (* [run] or [reConnect]: [<-r.outgoing] *)
| HandOff (werr : bool)       (* [run]: [outbound <- command], met by the pump *)
| PumpStopped                 (* [run]: [<-writePumpStopped] *)
| RecvInbound                 (* [run]: [<-inbound], in the loop or the drain *)
| Deliver                     (* [run]: [r.Incoming <- cmd] *)
| Cancel (w : nat)            (* [run]: [canceller <- struct{}{}], met by [w] *)
| RecvTimeout (w : nat)       (* [run]: [<-timeout], met by watcher [w] *)
| PumpClosed (i : nat)        (* write pump [i]: [<-outbound], closed *)
| PumpTick (i : nat) (werr : bool)  (* write pump [i]: [<-ticker.C] *)
| Read (r : option frame)     (* read pump: [r.ws.ReadMessage()] *)
| TimerFires (w : nat)        (* watcher [w]: [<-timer.C] *)
| ReconnectTick (dialed : bool)     (* [reConnect]: [<-ticker.C] *)
| CloseShutdown               (* [Close]: [r.shutdown = true] *)
| CloseOutgoing               (* [Close]: [close(r.outgoing)] *)
| CloseRange.                 (* [Close]: one receive of the [range] *)

Definition set_at (w : nat) (p : watcher_pc) (s : session) : session :=
  match watchers s !! w with
  | Some wr =>
      set_watchers
        (<[w:={| commandID := commandID wr;
                 timeoutCanceller := timeoutCanceller wr;
                 timeout := timeout wr; at_ := p |}]> (watchers s)) s
  | None => s
  end.

Definition step (l : label) (s : session) : option session :=
  match l with
  | Submit cmd =>
      (* a send on a closed channel panics, on a full one blocks *)
      if outgoing_closed s then None
      else if (length (outgoing s) <? 10)%nat
      then Some (set_outgoing (outgoing s ++ [cmd]) s)
      else None
  | Receive =>
      match Incoming s with
      | _ :: rest => Some (set_Incoming rest s)
      | [] => None
      end
  | RecvOutgoing =>
      match loop s, outgoing s with
      | Select, command :: rest =>
          Some (on_command command (set_outgoing rest s))
      | Select, [] =>
          if outgoing_closed s then Some (run_return s) else None
      | Reconnecting, command :: rest =>
          Some (set_events
                  (events s ++ [Fail command "ws: server disconnected"])
                  (set_outgoing rest s))
      | Reconnecting, [] =>
          if outgoing_closed s
          then Some (set_loop Exited (set_events (events s ++ [Errorln]) s))
          else None
      | _, _ => None
      end
  | HandOff werr =>
      match loop s, writers s !! generation s with
      | Handoff id command canceller, Some WritePump.Selecting =>
          Some (pump (generation s) (WritePump.Outbound command werr)
                  (set_loop Select
                     (set_watchers
                        (watchers s ++
                         [{| commandID := id; timeoutCanceller := canceller;
                             timeout := generation s; at_ := Waiting |}])
                        s)))
      | _, _ => None
      end
  | PumpStopped =>
      match loop s with
      | Handoff id command canceller =>
          if writePumpStopped s
          then Some (run_return
                       (set_timeoutCancellers (delete id (timeoutCancellers s)) s))
          else None
      | _ => None
      end
  | RecvInbound =>
      match loop s, reader s with
      | Select, Forwarding in_ => Some (on_inbound in_ (set_reader Reading s))
      | Select, _ =>
          if inbound_closed s
          then Some (run_return (set_events (events s ++ [Errorln]) s))
          else None
      | Draining, Forwarding _ => Some (set_reader Reading s)
      | Draining, _ => if inbound_closed s then Some (run_exit s) else None
      | _, _ => None
      end
  | Deliver =>
      match loop s with
      | SendIncoming cmd =>
          if Incoming_closed s then None
          else if (length (Incoming s) <? 1000)%nat
          then Some (set_loop Select (set_Incoming (Incoming s ++ [cmd]) s))
          else None
      | _ => None
      end
  | Cancel w =>
      match loop s, watchers s !! w with
      | Cancelling id cmd in_ canceller, Some wr =>
          match at_ wr with
          | Waiting =>
              if (timeoutCanceller wr =? canceller)%nat
              then Some (on_cancelled id cmd in_ (set_at w Gone s))
              else None
          | _ => None
          end
      | _, _ => None
      end
  | RecvTimeout w =>
      match loop s, watchers s !! w with
      | Select, Some wr =>
          match at_ wr with
          | Firing =>
              if (timeout wr =? generation s)%nat
              then Some (on_timeout (commandID wr) (set_at w Gone s))
              else None
          | _ => None
          end
      | _, _ => None
      end
  | PumpClosed i =>
      match writers s !! i with
      | Some WritePump.Selecting =>
          if (i <? generation s)%nat || outbound_closed s
          then Some (pump i WritePump.OutboundClosed s)
          else None
      | _ => None
      end
  | PumpTick i werr =>
      match writers s !! i with
      | Some WritePump.Selecting => Some (pump i (WritePump.Tick werr) s)
      | _ => None
      end
  | Read r =>
      match reader s, r with
      | Reading, Some message =>
          if ws_open s then Some (set_reader (Forwarding message) s) else None
      | Reading, None =>
          Some (set_inbound_closed true (set_reader ReaderReturned s))
      | _, _ => None
      end
  | TimerFires w =>
      match watchers s !! w with
      | Some wr =>
          match at_ wr with
          | Waiting => Some (set_at w Firing s)
          | _ => None
          end
      | None => None
      end
  | ReconnectTick dialed =>
      match loop s with
      | Reconnecting =>
          if dialed
          then Some (run_start (S (generation s)) (writers s) s)
          else Some (set_events (events s ++ [Errorln]) s)
      | _ => None
      end
  | CloseShutdown =>
      match closer s with
      | NotCalled => Some (set_closer Closing (set_shutdown true s))
      | _ => None
      end
  | CloseOutgoing =>
      match closer s with
      | Closing =>
          if outgoing_closed s then None
          else Some (set_closer Ranging (set_outgoing_closed true s))
      | _ => None
      end
  | CloseRange =>
      match closer s, Incoming s with
      | Ranging, _ :: rest => Some (set_Incoming rest s)
      | Ranging, [] =>
          if Incoming_closed s then Some (set_closer CloseReturned s) else None
      | _, _ => None
      end
  end.

(** A schedule, run from [s]; [None] when one of its transitions is not
    enabled. *)
Fixpoint exec (ls : list label) (s : session) : option session :=
  match ls with
  | [] => Some s
  | l :: ls' =>
      match step l s with
      | Some s' => exec ls' s'
      | None => None
      end
  end.

(** [NewRemote] after a successful dial. *)
Definition NewRemote (enableReconnection : bool) : session :=
  {| Incoming := []; Incoming_closed := false;
     outgoing := []; outgoing_closed := false;
     reConn := enableReconnection; shutdown := false;
     generation := 0; outbound_closed := false; inbound_closed := false;
     writePumpStopped := false; pending := ∅; timeoutCancellers := ∅;
     response := zero; loop := Select; writers := [WritePump.Selecting];
     reader := Reading; watchers := []; closer := NotCalled;
     ws_open := true; written := []; cancellers_made := 0; events := [] |}.

(** Whether the event is a [Done] or [Fail] call on a command with
    this id. *)
Definition completes (id : N) (e : event) : bool :=
  match e with
  | Done c | Fail c _ => (SyncerId c =? id)%N
  | _ => false
  end.

(** The number of [Done] and [Fail] calls made on that id. *)
Definition completions (id : N) (evs : list event) : nat :=
  sum_list_with (λ e, if completes id e then 1 else 0) evs.

(** The number of commands with that id in a queue. *)
Definition queued (id : N) (cmds : list Syncer) : nat :=
  sum_list_with (λ c, if (SyncerId c =? id)%N then 1 else 0) cmds.

(** The number of sends of a command with that id on [r.outgoing]. *)
Definition submissions (id : N) (ls : list label) : nat :=
  sum_list_with (λ l, match l with
                      | Submit cmd => if (SyncerId cmd =? id)%N then 1 else 0
                      | _ => 0
                      end) ls.

(** [run] is between its start and its [return]: its tables are in use. *)
Definition running (p : loop_pc) : bool :=
  match p with
  | Select | Handoff _ _ _ | SendIncoming _ | Cancelling _ _ _ _ => true
  | Draining | Reconnecting | Exited => false
  end.

(** The commands with that id the session still has to complete: those
    in [r.outgoing], the one in the pending table of a running [run],
    and the one [run] took out of the table to complete it. *)
Definition outstanding (id : N) (s : session) : nat :=
  queued id (outgoing s) +
  (if running (loop s)
   then match pending s !! id with Some _ => 1 | None => 0 end
   else 0) +
  match loop s with
  | Cancelling id' _ _ _ => if (id' =? id)%N then 1 else 0
  | _ => 0
  end.

(** The pending table is keyed by the ids of its commands. *)
Definition keyed (s : session) : Prop :=
  (∀ k c, pending s !! k = Some c → SyncerId c = k) ∧
  (∀ id cmd in_ canceller,
     loop s = Cancelling id cmd in_ canceller → SyncerId cmd = id).

(** Watcher [w] is a goroutine that has not returned. *)
Definition live_watcher (s : session) (w : nat) : Prop :=
  ∃ wr, watchers s !! w = Some wr ∧ at_ wr ≠ Gone.

(** [run] is blocked in its send on [canceller] and no watcher is left
    to receive from that channel. *)
Definition stalled (id : N) (cmd : Syncer) (in_ : frame) (canceller : nat)
    (s : session) : Prop :=
  loop s = Cancelling id cmd in_ canceller ∧
  ∀ w wr, watchers s !! w = Some wr →
    timeoutCanceller wr = canceller → at_ wr ≠ Waiting.

(** [Close] is in its [range] over an open, empty [Incoming] while
    neither [run] nor [reConnect] is running. *)
Definition hung (s : session) : Prop :=
  closer s = Ranging ∧ Incoming s = [] ∧ Incoming_closed s = false ∧
  loop s = Exited.

(** Watcher [w] has not returned while neither [run] nor [reConnect] is
    running. *)
Definition leaked (w : nat) (s : session) : Prop :=
  loop s = Exited ∧ live_watcher s w.

(** The reply to a command reaches [run] after the timer of the
    command's watcher fired. *)
Definition reply_after_timer (cmd : Syncer) (in_ : frame) : list label :=
  [Submit cmd; RecvOutgoing; HandOff false; TimerFires 0;
   Read (Some in_); RecvInbound].

(** The connection is lost, [run] starts [reConnect], then [Close] is
    called and [reConnect] finds [r.outgoing] closed. *)
Definition close_while_reconnecting : list label :=
  [Read None; RecvInbound; RecvInbound; CloseShutdown; CloseOutgoing;
   RecvOutgoing].

(** [Close] is called with one command in flight and runs to its end. *)
Definition close_with_command_in_flight (cmd : Syncer) : list label :=
  [Submit cmd; RecvOutgoing; HandOff false; CloseShutdown; CloseOutgoing;
   RecvOutgoing; PumpClosed 0; Read None; RecvInbound; CloseRange].

(** *** What every reachable state satisfies *)

(** One write pump per generation; [writePumpStopped] is closed by the
    pump of the current generation only, when it returns. *)
Definition pumps_consistent (s : session) : Prop :=
  length (writers s) = S (generation s) ∧
  (writePumpStopped s = true →
   writers s !! generation s = Some WritePump.Returned).

(** The order of the shutdown: [inbound] is closed by the read pump as
    it returns, [run] drains with [outbound] closed, and [r.Incoming] is
    closed last, by a [run] that has returned. *)
Definition shutdown_ordered (s : session) : Prop :=
  (inbound_closed s = true → reader s = ReaderReturned) ∧
  (loop s = Draining → outbound_closed s = true) ∧
  (Incoming_closed s = true →
   loop s = Exited ∧ inbound_closed s = true ∧ outbound_closed s = true) ∧
  (closer s = CloseReturned → Incoming_closed s = true ∧ Incoming s = []).

(** While [run] runs, every pending command has its canceller in the
    table, and the command [run] is completing is out of the pending
    table. *)
Definition cancellers_cover (s : session) : Prop :=
  (running (loop s) = true →
   ∀ id, is_Some (pending s !! id) → is_Some (timeoutCancellers s !! id)) ∧
  (∀ id cmd in_ canceller,
     loop s = Cancelling id cmd in_ canceller → pending s !! id = None).

(** The command [run] is handing to the write pump is in both tables. *)
Definition handoff_registered (s : session) : Prop :=
  ∀ id command canceller, loop s = Handoff id command canceller →
    pending s !! id = Some command ∧
    timeoutCancellers s !! id = Some canceller.

(** Every watcher sends on the [timeout] channel of a [run] that has
    been started and receives from a canceller that has been made, as
    does the watcher [run] is about to start. *)
Definition watchers_dated (s : session) : Prop :=
  (∀ w wr, watchers s !! w = Some wr →
     timeout wr ≤ generation s ∧ timeoutCanceller wr < cancellers_made s) ∧
  (∀ id command canceller, loop s = Handoff id command canceller →
     canceller < cancellers_made s).

(** A canceller and the [timeout] channel of a generation are out of
    the reach of [run]: a running [run] is of a later generation, and
    the canceller is neither in its table nor the one it is handing out
    or sending on. *)
Definition out_of_reach (canceller gen : nat) (s : session) : Prop :=
  gen ≤ generation s ∧ canceller < cancellers_made s ∧
  (running (loop s) = true →
   gen < generation s ∧
   (∀ id, timeoutCancellers s !! id ≠ Some canceller) ∧
   (∀ id command, loop s ≠ Handoff id command canceller) ∧
   (∀ id cmd in_, loop s ≠ Cancelling id cmd in_ canceller)).

(** Watcher [w] has not returned and its two channels are out of the
    reach of [run]. *)
Definition orphan (w : nat) (s : session) : Prop :=
  ∃ wr, watchers s !! w = Some wr ∧ at_ wr ≠ Gone ∧
    out_of_reach (timeoutCanceller wr) (timeout wr) s.

(** The commands a schedule sends on [r.outgoing], in order. *)
Definition submitted (ls : list label) : list Syncer :=
  omap (λ l, match l with Submit cmd => Some cmd | _ => None end) ls.

(** The text frames written are serializations of commands taken from
    [r.outgoing], at most one per command taken (multiplicities
    counted); the command [run] is handing to the pump is not written
    yet.  [sent] lists the commands sent on [r.outgoing] so far. *)
Definition written_once (sent : list Syncer) (s : session) : Prop :=
  ∃ taken, sent = taken ++ outgoing s ∧
    match loop s with
    | Handoff _ command _ =>
        ∃ before, taken = before ++ [command] ∧
          WritePump.texts (written s) ⊆+ omap Marshal before
    | _ => WritePump.texts (written s) ⊆+ omap Marshal taken
    end.

(** A push reaches [run] and is delivered while a command is in flight;
    the reply to the command is read next. *)
Definition reply_after_push (cmd : Syncer) (push reply : frame) : list label :=
  [Submit cmd; RecvOutgoing; HandOff false; Read (Some push); RecvInbound;
   Deliver; Read (Some reply)].

(** Two commands, the first of which cannot be serialized, are handed
    to the write pump. *)
Definition two_commands (bad good : Syncer) : list label :=
  [Submit bad; Submit good; RecvOutgoing; HandOff false; RecvOutgoing;
   HandOff false].

(** The connection is lost and [run] returns. *)
Definition disconnect : list label :=
  [Read None; RecvInbound; RecvInbound].

(** [reConnect] receives every command of the queue. *)
Definition drain (cmds : list Syncer) : list label :=
  replicate (length cmds) RecvOutgoing.

(** A command is handed to a write pump that has returned. *)
Definition submit_after_pump_failed (cmd : Syncer) : list label :=
  [PumpTick 0 true; Submit cmd; RecvOutgoing].

(** The reply to a command reaches [run] while the watcher waits. *)
Definition reply_in_time (cmd : Syncer) (in_ : frame) : list label :=
  [Submit cmd; RecvOutgoing; HandOff false; Read (Some in_)].

(** The connection is lost with a command in flight. *)
Definition connection_lost (cmd : Syncer) : list label :=
  [Submit cmd; RecvOutgoing; HandOff false; Read None; RecvInbound].

End Session.
End Session.

(** ** A small instance, to run the definitions on *)

Module Toy.
Import Session.

(** Commands are their ids.  The empty frame does not decode; the frame
    ["ledgerClosed"] is a push of that type (it has no id: the header
    keeps the one of the frame before); any other frame is a reply whose
    id is its length. *)
Definition SyncerId (cmd : N) : N := cmd.

Definition unmarshalCommand (in_ : frame) (old : Command) : Command * bool :=
  if String.eqb in_ "" then (old, false)
  else if String.eqb in_ "ledgerClosed"
  then ({| Id := Id old; Type_ := "ledgerClosed" |}, true)
  else ({| Id := N.of_nat (String.length in_); Type_ := "response" |}, true).

(** The envelopes of the wire contract: a push carries a type and no
    id, a reply an id and no type.  [json.Unmarshal] stores the fields
    the object has and leaves the other fields of the header as they
    are.  The empty frame does not decode; ["ledgerClosed"] is a push of
    that type; any other frame is a reply whose id is its length. *)
Definition unmarshalEnvelope (in_ : frame) (old : Command) : Command * bool :=
  if String.eqb in_ "" then (old, false)
  else if String.eqb in_ "ledgerClosed"
  then ({| Id := Id old; Type_ := "ledgerClosed" |}, true)
  else ({| Id := N.of_nat (String.length in_); Type_ := Type_ old |}, true).

Definition streamMessageFactory (type : string)
    : option (frame -> option string) :=
  if String.eqb type "ledgerClosed" then Some (λ in_, Some in_) else None.

Definition unmarshalSyncer (in_ : frame) (cmd : N) : N * bool := (cmd, true).

(** Command 0 cannot be serialized. *)
Definition Marshal (cmd : N) : option frame :=
  if (cmd =? 0)%N then None else Some "{}".

Definition step := step SyncerId unmarshalCommand streamMessageFactory
                     unmarshalSyncer Marshal.
Definition exec := exec SyncerId unmarshalCommand streamMessageFactory
                     unmarshalSyncer Marshal.

(** Transactions are their serialization, when they have one. *)
Definition Raw (tx : option (list Byte.byte)) : unit + list Byte.byte :=
  match tx with
  | Some raw => inr raw
  | None => inl tt
  end.

Definition newAccountTxCommand (account : string) (pageSize : Z)
    (marker : option nat) (minLedger maxLedger : Z) : option nat := marker.

(** Ledger data commands are their marker; an entry is its bytes, and
    the empty entry does not parse. *)
Definition newBinaryLedgerDataCommand (ledger : string) (marker : option nat)
    : option nat := marker.

Definition ReadLedgerEntry (b : list Byte.byte)
    : option (list Byte.byte) * option unit :=
  match b with
  | [] => (None, Some tt)
  | _ => (Some b, None)
  end.
End Toy.

(** * Properties *)

(** ** The write pump *)

Section WritePumpFacts.
Import WritePump.
Context {Message : Type} (Marshal : Message -> option frame).

Local Abbreviation writePump := (writePump Marshal).
Local Abbreviation iteration := (iteration Marshal).

Lemma writePump_cons e evs :
  writePump (e :: evs) =
    match (iteration e).2 with
    | Returned => ((iteration e).1, Returned)
    | Selecting => ((iteration e).1 ++ (writePump evs).1, (writePump evs).2)
    end.
Proof.
  simpl. destruct (iteration e) as [acts []]; simpl; [|done].
  by destruct (writePump evs).
Qed.

(** A pump still selecting after [pre] goes on with what follows. *)
Lemma writePump_app pre evs :
  (writePump pre).2 = Selecting →
  writePump (pre ++ evs) =
    ((writePump pre).1 ++ (writePump evs).1, (writePump evs).2).
Proof.
  induction pre as [|e pre IH]; intros Hsel.
  - simpl. by destruct (writePump evs).
  - rewrite <- app_comm_cons, !writePump_cons in *.
    destruct (iteration e) as [acts []]; simpl in *; [|done].
    rewrite IH by done. simpl. by rewrite app_assoc.
Qed.

(** As long as the pump selects, it has written no close frame. *)
Lemma selecting_no_close evs :
  (writePump evs).2 = Selecting →
  WriteMessage CloseMessage ∉ (writePump evs).1.
Proof.
  induction evs as [|e evs IH]; intros Hsel; [apply not_elem_of_nil|].
  rewrite writePump_cons in *.
  destruct e as [m [] | | []]; simpl in *;
    try destruct (Marshal m); simpl in *; try done;
    specialize (IH Hsel); set_solver.
Qed.

(** A pump that returned did so on one event of the schedule. *)
Lemma returned_split evs :
  (writePump evs).2 = Returned →
  ∃ pre e post, evs = pre ++ e :: post ∧
    (writePump pre).2 = Selecting ∧ (iteration e).2 = Returned.
Proof.
  induction evs as [|e evs IH]; intros Hret; [done|].
  rewrite writePump_cons in Hret.
  destruct (iteration e) as [acts p] eqn:He; destruct p; simpl in *.
  - destruct (IH Hret) as (pre & e' & post & -> & Hpre & He').
    exists (e :: pre), e', post. split; [done|]. split; [|done].
    rewrite writePump_cons, He. done.
  - exists [], e, evs. by rewrite He.
Qed.

(** C8: a message that cannot be serialized is logged and skipped, the
    pump going on with the rest of its schedule; a message that is
    serialized and whose send fails makes the pump return. *)
Theorem marshal_failure_skipped_send_failure_returns
    (pre post : list ready) (bad good : Message) (b : frame) (werr : bool) :
  (writePump pre).2 = Selecting →
  Marshal bad = None →
  Marshal good = Some b →
  writePump (pre ++ Outbound bad werr :: post) =
    ((writePump pre).1 ++ Errorln :: (writePump post).1, (writePump post).2) ∧
  writePump (pre ++ Outbound good true :: post) =
    ((writePump pre).1 ++ [WriteMessage (TextMessage b); Errorln], Returned) ∧
  writePump (pre ++ Outbound good false :: post) =
    ((writePump pre).1 ++ WriteMessage (TextMessage b) :: (writePump post).1,
     (writePump post).2).
Proof.
  intros Hsel Hbad Hgood. repeat split;
    rewrite writePump_app, writePump_cons by done; simpl;
    by rewrite ?Hbad, ?Hgood.
Qed.

(** C7, amended: a pump that returned did so on one event; it wrote the
    close frame, last, exactly when that event is the closure of
    [outbound], and wrote no close frame at all when the event is a
    failed send of a message or of a ping. *)
Theorem close_frame_only_on_closure (evs : list ready) (acts : list action) :
  writePump evs = (acts, Returned) →
  ∃ pre e post, evs = pre ++ e :: post ∧ (writePump pre).2 = Selecting ∧
    ((e = OutboundClosed ∧
      acts = (writePump pre).1 ++ [WriteMessage CloseMessage] ∧
      WriteMessage CloseMessage ∉ (writePump pre).1) ∨
     (send_failure Marshal e ∧ WriteMessage CloseMessage ∉ acts)).
Proof.
  intros Hrun.
  destruct (returned_split evs) as (pre & e & post & -> & Hpre & He);
    [by rewrite Hrun|].
  exists pre, e, post. split; [done|]. split; [done|].
  pose proof (selecting_no_close pre Hpre) as Hno.
  rewrite writePump_app, writePump_cons in Hrun by done.
  destruct e as [m [] | | []]; simpl in *;
    try destruct (Marshal m) eqn:Hm; simpl in *; try done;
    injection Hrun as <-.
  - right. split; [by eexists|]. set_solver.
  - by left.
  - right. split; [done|]. set_solver.
Qed.

End WritePumpFacts.

(** C7, as stated, fails: a pump whose first ping cannot be sent returns
    having written the ping only. *)
Lemma ping_failure_writes_no_close_frame :
  WritePump.writePump Toy.Marshal [WritePump.Tick true] =
    ([WritePump.WriteMessage WritePump.PingMessage; WritePump.Errorln],
     WritePump.Returned) ∧
  WritePump.WriteMessage WritePump.CloseMessage ∉
    (WritePump.writePump Toy.Marshal [WritePump.Tick true]).1.
Proof. split; [reflexivity|]. simpl. set_solver. Qed.

Lemma close_frame_only_on_closure_witness :
  ∃ pre e post,
    [WritePump.Outbound 1%N false; WritePump.OutboundClosed] = pre ++ e :: post ∧
    (WritePump.writePump Toy.Marshal pre).2 = WritePump.Selecting ∧
    ((e = WritePump.OutboundClosed ∧
      [WritePump.WriteMessage (WritePump.TextMessage "{}");
       WritePump.WriteMessage WritePump.CloseMessage] =
        (WritePump.writePump Toy.Marshal pre).1 ++
          [WritePump.WriteMessage WritePump.CloseMessage] ∧
      WritePump.WriteMessage WritePump.CloseMessage ∉
        (WritePump.writePump Toy.Marshal pre).1) ∨
     (WritePump.send_failure Toy.Marshal e ∧
      WritePump.WriteMessage WritePump.CloseMessage ∉
        [WritePump.WriteMessage (WritePump.TextMessage "{}");
         WritePump.WriteMessage WritePump.CloseMessage])).
Proof.
  apply (close_frame_only_on_closure Toy.Marshal
           [WritePump.Outbound 1%N false; WritePump.OutboundClosed]).
  reflexivity.
Defined.

Lemma marshal_failure_skipped_send_failure_returns_witness :
  let pre := [WritePump.Tick false] in
  let post := [WritePump.Tick false; WritePump.OutboundClosed] in
  WritePump.writePump Toy.Marshal (pre ++ WritePump.Outbound 0%N true :: post) =
    ((WritePump.writePump Toy.Marshal pre).1 ++
       WritePump.Errorln :: (WritePump.writePump Toy.Marshal post).1,
     (WritePump.writePump Toy.Marshal post).2) ∧
  WritePump.writePump Toy.Marshal (pre ++ WritePump.Outbound 1%N true :: post) =
    ((WritePump.writePump Toy.Marshal pre).1 ++
       [WritePump.WriteMessage (WritePump.TextMessage "{}"); WritePump.Errorln],
     WritePump.Returned) ∧
  WritePump.writePump Toy.Marshal (pre ++ WritePump.Outbound 1%N false :: post) =
    ((WritePump.writePump Toy.Marshal pre).1 ++
       WritePump.WriteMessage (WritePump.TextMessage "{}") ::
       (WritePump.writePump Toy.Marshal post).1,
     (WritePump.writePump Toy.Marshal post).2).
Proof.
  intros pre post.
  apply (marshal_failure_skipped_send_failure_returns Toy.Marshal
           pre post 0%N 1%N "{}" true); reflexivity.
Defined.

Section WritePumpOrder.
Import WritePump.
Context {Message : Type} (Marshal : Message -> option frame).

Local Abbreviation writePump := (writePump Marshal).
Local Abbreviation iteration := (iteration Marshal).

(** The text frames the pump writes are the serializations of the
    messages handed to it, in the order handed, those that cannot be
    serialized left out: of all of them while the pump runs, of those up
    to the one on which it returned otherwise.  No message is written
    twice or out of order, and none is lost before the pump returns. *)
Theorem writePump_writes_in_order (evs : list ready) :
  ∃ n, n ≤ length (handed evs) ∧
    texts (writePump evs).1 = omap Marshal (take n (handed evs)) ∧
    ((writePump evs).2 = Selecting → n = length (handed evs)).
Proof.
  induction evs as [|e evs (n & Hn & Htexts & Hall)].
  - exists 0. by repeat split.
  - simpl. destruct e as [m werr| |werr]; simpl.
    + destruct (Marshal m) as [b|] eqn:Hm.
      * destruct werr; simpl.
        -- exists 1. simpl. rewrite Hm. repeat split; [lia|done].
        -- destruct (WritePump.writePump Marshal evs) as [acts p] eqn:Hrun.
           exists (S n). simpl in *. rewrite Hm, Htexts.
           repeat split; [lia|]. intros Hp. by rewrite Hall.
      * destruct (WritePump.writePump Marshal evs) as [acts p] eqn:Hrun.
        exists (S n). simpl in *. rewrite Hm, Htexts.
        repeat split; [lia|]. intros Hp. by rewrite Hall.
    + exists 0. simpl. repeat split; [lia|done].
    + destruct werr; simpl.
      * exists 0. simpl. repeat split; [lia|done].
      * destruct (WritePump.writePump Marshal evs) as [acts p] eqn:Hrun.
        exists n. simpl in *. repeat split; try done.
Qed.

End WritePumpOrder.

(** ** The paginated driver *)

Section AccountTxFacts.
Import AccountTx.
Context {Account Marker TransactionWithMetaData AccountTxCommand : Type}.
Context (newAccountTxCommand :
           Account -> Z -> option Marker -> Z -> Z -> AccountTxCommand).
Context (account : Account) (pageSize minLedger maxLedger : Z).

Local Abbreviation new :=
  (command newAccountTxCommand account pageSize minLedger maxLedger).
Local Abbreviation loop :=
  (loop newAccountTxCommand account pageSize minLedger maxLedger).
Local Abbreviation accountTx :=
  (accountTx newAccountTxCommand account pageSize minLedger maxLedger).

(** One turn of the loop on a page that carries a marker. *)
Lemma loop_more (txs : list TransactionWithMetaData) (m : Marker)
    marker replies demand :
  length txs ≤ demand →
  loop marker (more (txs, m) :: replies) demand =
    let d := loop (Some m) replies (demand - length txs) in
    {| submitted := new marker :: submitted d;
       yielded := txs ++ yielded d;
       state := state d |}.
Proof.
  intros Hdemand. simpl.
  by destruct (Nat.ltb_spec demand (length txs)); [lia|].
Qed.

(** The turn on a page without marker, and on a failed command. *)
Lemma loop_last (txs : list TransactionWithMetaData) marker replies demand :
  length txs ≤ demand →
  loop marker (page txs None :: replies) demand =
    {| submitted := [new marker]; yielded := txs; state := Closed |}.
Proof.
  intros Hdemand. simpl.
  by destruct (Nat.ltb_spec demand (length txs)); [lia|].
Qed.

Lemma loop_failed err (result : option (@AccountTxResult Marker TransactionWithMetaData))
    marker replies demand :
  loop marker ({| CommandError := Some err; Result := result |} :: replies)
    demand =
    {| submitted := [new marker]; yielded := []; state := Closed |}.
Proof. done. Qed.

Lemma default_last_cons {A} (d x : A) (l : list A) :
  default d (last (x :: l)) = default x (last l).
Proof. rewrite last_cons. by destruct (last l). Qed.

Lemma take_snoc_last {A} (x : A) (l : list A) :
  take (length l) (x :: l) ++ [default x (last l)] = x :: l.
Proof.
  revert x. induction l as [|y l IH]; intros x; [done|].
  rewrite default_last_cons. simpl. by rewrite IH.
Qed.

(** Pages with a marker, followed by whatever completes the next
    command: the driver gets through them and goes on from the marker
    of the last one. *)
Lemma loop_pages (pages : list (list TransactionWithMetaData * Marker))
    marker (final : completed) replies demand :
  length (items pages) ≤ demand →
  let d := loop (default marker (last (markers pages)))
             (final :: replies) (demand - length (items pages)) in
  loop marker ((more <$> pages) ++ final :: replies) demand =
    {| submitted :=
         (new <$> take (length pages) (marker :: markers pages)) ++ submitted d;
       yielded := items pages ++ yielded d;
       state := state d |}.
Proof.
  revert marker demand.
  induction pages as [|[txs m] pages IH]; intros marker demand Hdemand d.
  - subst d. unfold items, markers. cbn -[AccountTx.loop].
    rewrite Nat.sub_0_r.
    by destruct (loop marker (final :: replies) demand).
  - subst d. unfold items, markers in *.
    rewrite !fmap_cons, concat_cons in *. cbn [fst snd] in *.
    rewrite length_app in Hdemand.
    rewrite <- app_comm_cons, loop_more by lia.
    cbv zeta. rewrite (IH (Some m)) by lia. cbn [submitted yielded state].
    rewrite length_app, Nat.sub_add_distr, default_last_cons.
    cbn [length take]. by rewrite fmap_cons, <- app_comm_cons, <- app_assoc.
Qed.

(** C9: when pages 1..k-1 come with a marker and page k without, and the
    consumer receives what is sent, the driver submits exactly k
    commands (the first with no marker, each next one with the marker
    of the page before), sends the transactions of all pages in page
    order, and closes the channel; a command that fails on any page
    closes the channel too. *)
Theorem accountTx_pagination
    (pages : list (list TransactionWithMetaData * Marker))
    (lastTxs : list TransactionWithMetaData) (replies : list completed)
    (err : string) (result : option AccountTxResult) (demand : nat) :
  length (items pages ++ lastTxs) ≤ demand →
  (let d := accountTx ((more <$> pages) ++ page lastTxs None :: replies) demand in
   submitted d = new <$> (None :: markers pages) ∧
   length (submitted d) = S (length pages) ∧
   yielded d = items pages ++ lastTxs ∧
   state d = Closed) ∧
  (let d := accountTx ((more <$> pages) ++
                       {| CommandError := Some err; Result := result |} :: replies)
              demand in
   length (submitted d) = S (length pages) ∧
   yielded d = items pages ∧
   state d = Closed).
Proof.
  intros Hdemand. rewrite length_app in Hdemand.
  assert (Hlen : length (markers pages) = length pages)
    by (unfold markers; by rewrite !length_fmap).
  split; unfold accountTx, AccountTx.accountTx; rewrite loop_pages by lia;
    cbv zeta; [rewrite loop_last by lia | rewrite loop_failed];
    cbn [submitted yielded state].
  - change [new ?m] with (new <$> [m]).
    rewrite <- fmap_app, <- Hlen, take_snoc_last.
    by rewrite length_fmap, length_cons.
  - rewrite length_app, length_fmap, length_take, length_cons, app_nil_r.
    simpl. split; [lia|done].
Qed.

End AccountTxFacts.

Lemma accountTx_pagination_witness :
  let pages := [(["a"; "b"], 7); (["c"], 9)] in
  (let d := AccountTx.accountTx Toy.newAccountTxCommand "rAccount" 2 (-1) (-1)
              ((AccountTx.more <$> pages) ++ AccountTx.page ["d"] None :: []) 4 in
   AccountTx.submitted d =
     AccountTx.command Toy.newAccountTxCommand "rAccount" 2 (-1) (-1) <$>
       (None :: AccountTx.markers pages) ∧
   length (AccountTx.submitted d) = 3 ∧
   AccountTx.yielded d = AccountTx.items pages ++ ["d"] ∧
   AccountTx.state d = AccountTx.Closed) ∧
  (let d := AccountTx.accountTx Toy.newAccountTxCommand "rAccount" 2 (-1) (-1)
              ((AccountTx.more <$> pages) ++
               {| AccountTx.CommandError := Some "command timed out";
                  AccountTx.Result := None |} :: []) 4 in
   length (AccountTx.submitted d) = 3 ∧
   AccountTx.yielded d = AccountTx.items pages ∧
   AccountTx.state d = AccountTx.Closed).
Proof.
  intros pages.
  apply (accountTx_pagination Toy.newAccountTxCommand "rAccount" 2 (-1) (-1)
           pages ["d"] [] "command timed out" None 4).
  simpl. lia.
Defined.

(** ** Batched submission *)

Section SubmitBatchFacts.
Import SubmitBatch.
Context {Transaction SubmitResult error : Type}.
Context (Raw : Transaction -> error + list Byte.byte).

Local Abbreviation SubmitBatch := (SubmitBatch (SubmitResult:=SubmitResult) Raw).
Local Abbreviation enqueue := (enqueue Raw).
Local Abbreviation serializes := (λ tx raw, Raw tx = inr raw).
Local Abbreviation blob := (λ raw, {| TxBlob := sprintfX raw |}).

(** What the first loop has enqueued when it stops, and why it stops. *)
Lemma enqueue_inv txs :
  match enqueue txs with
  | (cmds, Some err) =>
      ∃ pre tx post raws, txs = pre ++ tx :: post ∧
        Forall2 serializes pre raws ∧ Raw tx = inl err ∧ cmds = blob <$> raws
  | (cmds, None) =>
      ∃ raws, Forall2 serializes txs raws ∧ cmds = blob <$> raws
  end.
Proof.
  induction txs as [|tx txs IH]; simpl.
  - exists []. by split; [constructor|].
  - destruct (Raw tx) as [err|raw] eqn:Htx.
    + exists [], tx, txs, []. by repeat split; [constructor|..].
    + destruct (enqueue txs) as [cmds [err|]].
      * destruct IH as (pre & tx' & post & raws & -> & Hpre & Htx' & ->).
        exists (tx :: pre), tx', post, (raw :: raws).
        by repeat split; [constructor|..].
      * destruct IH as (raws & Hall & ->).
        exists (raw :: raws). by split; [constructor|].
Qed.

(** C10, amended: [SubmitBatch] returns an error exactly when a
    transaction fails to serialize, with nil results; the commands of
    the transactions before the first such one are enqueued by then.
    When all serialize, every command is enqueued and, once all are
    completed, the error is nil and the results hold, per index, the
    [Result] of that command, which is nil for a command failed by the
    timeout or by a disconnect. *)
Theorem SubmitBatch_returns (txs : list Transaction) (completions : list completion) :
  let out := SubmitBatch txs completions in
  match returned out with
  | Some (results, Some err) =>
      results = None ∧
      ∃ pre tx post raws, txs = pre ++ tx :: post ∧
        Forall2 serializes pre raws ∧ Raw tx = inl err ∧
        enqueued out = blob <$> raws
  | Some (results, None) =>
      (∃ raws, Forall2 serializes txs raws ∧ enqueued out = blob <$> raws) ∧
      length txs ≤ length completions ∧
      ∃ rs, results = Some rs ∧ length rs = length txs ∧
        ∀ i c, i < length txs → completions !! i = Some c →
          rs !! i = Some (Result c) ∧
          (c = CompleteFailTimeout ∨ c = CompleteFailDisconnect →
           rs !! i = Some None)
  | None =>
      (∃ raws, Forall2 serializes txs raws ∧ enqueued out = blob <$> raws) ∧
      length completions < length txs
  end.
Proof.
  unfold SubmitBatch.SubmitBatch. pose proof (enqueue_inv txs) as Hinv.
  destruct (enqueue txs) as [cmds [err|]]; simpl.
  - split; [done|]. exact Hinv.
  - destruct Hinv as (raws & Hall & ->).
    assert (Hlen : length (blob <$> raws) = length txs)
      by (rewrite length_fmap; symmetry; by eapply Forall2_length).
    rewrite Hlen.
    destruct (Nat.ltb_spec (length completions) (length txs)); simpl.
    + split; [by exists raws|done].
    + split; [by exists raws|]. split; [done|].
      eexists. split; [done|]. split.
      * rewrite length_fmap, length_take. lia.
      * intros i c Hi Hc.
        assert (Hrs : (Result <$> take (length txs) completions) !! i =
                      Some (Result c))
          by (by rewrite list_lookup_fmap, lookup_take_lt, Hc).
        split; [done|]. by intros [-> | ->].
Qed.

End SubmitBatchFacts.

(** C10, as stated, fails: with a second transaction that does not
    serialize, the error is returned after the command of the first one
    was enqueued. *)
Lemma SubmitBatch_error_after_enqueue :
  SubmitBatch.SubmitBatch (SubmitResult:=unit) Toy.Raw
    [Some [Byte.x1a; Byte.xff]; None] [] =
    {| SubmitBatch.enqueued := [{| SubmitBatch.TxBlob := "1AFF" |}];
       SubmitBatch.returned := Some (None, Some tt) |}.
Proof. reflexivity. Qed.

(** ** The marker-following calls *)

(** The marker a loop goes on with after a list of pages, and the
    markers its commands were built with. *)
Lemma last_cons_default {A} (d x : A) (l : list A) :
  default d (last (x :: l)) = default x (last l).
Proof. rewrite last_cons. by destruct (last l). Qed.

Lemma lookup_length_cons {A} (x : A) (l : list A) :
  (x :: l) !! length l = Some (default x (last l)).
Proof.
  revert x. induction l as [|y l IH]; intros x; [done|].
  rewrite last_cons_default. apply IH.
Qed.

Lemma markers_before_last {A} (x : A) (l : list A) :
  take (length l) (x :: l) ++ [default x (last l)] = x :: l.
Proof.
  revert x. induction l as [|y l IH]; intros x; [done|].
  rewrite last_cons_default. simpl. by rewrite IH.
Qed.

Section AccountLinesFacts.
Import AccountLines.
Context {Account Hash256 Item Index Rest error : Type}.
Context (sort : list Item -> list Item).
Context (name : string) (account : Account).

Local Abbreviation interface := (@interface Index).
Local Abbreviation page := (@page Hash256 Item Rest).
Local Abbreviation completed := (@completed Hash256 Item Rest error).
Local Abbreviation new := (command (Index:=Index) (Hash256:=Hash256) name account).
Local Abbreviation loop := (loop (Index:=Index) (error:=error) sort name account).
Local Abbreviation markers :=
  (λ pages : list page, Some <$> (page_marker <$> pages)).
Local Abbreviation sequences :=
  (λ pages : list page, page_sequence <$> pages).
Local Abbreviation collected :=
  (λ pages : list page, concat (page_items <$> pages)).

Lemma reported_snoc (ledgerIndex : interface) sequences sequence :
  reported ledgerIndex (sequences ++ [sequence]) =
    pin (reported ledgerIndex sequences) sequence.
Proof.
  unfold reported. rewrite omap_app. destruct sequence as [n|]; simpl.
  - by rewrite last_snoc.
  - by rewrite app_nil_r.
Qed.

Lemma reported_cons (ledgerIndex : interface) sequence sequences :
  reported ledgerIndex (sequence :: sequences) =
    reported (pin ledgerIndex sequence) sequences.
Proof.
  revert sequence.
  induction sequences as [|s' sequences IH] using rev_ind; intros sequence.
  - by destruct sequence.
  - by rewrite app_comm_cons, !reported_snoc, IH.
Qed.

(** Pages with a marker, followed by whatever completes the commands
    after them: the loop goes through the pages and goes on with their
    items collected, the marker of the last one and the last ledger
    sequence reported. *)
Lemma paged_loop (pages : list page) items marker ledgerIndex
    (tail : list completed) :
  let d := loop (items ++ collected pages)
             (default marker (last (markers pages)))
             (reported ledgerIndex (sequences pages)) tail in
  let d' := loop items marker ledgerIndex ((more <$> pages) ++ tail) in
  state d' = state d ∧
  length (submitted d') = length pages + length (submitted d) ∧
  ∀ i c, submitted d' !! i = Some c →
    if decide (i < length pages)
    then c = new (default marker ((marker :: markers pages) !! i))
               (reported ledgerIndex (take i (sequences pages)))
    else submitted d !! (i - length pages) = Some c.
Proof.
  revert items marker ledgerIndex.
  induction pages as [|p pages IH]; intros items marker ledgerIndex d d'.
  - subst d d'. simpl. rewrite app_nil_r. repeat split.
    intros i c Hc. by rewrite Nat.sub_0_r.
  - subst d d'. rewrite !fmap_cons, concat_cons, app_assoc, reported_cons.
    rewrite last_cons_default.
    destruct (IH (items ++ page_items p) (Some (page_marker p))
                (pin ledgerIndex (page_sequence p))) as (Hstate & Hlen & Hsub).
    cbn [app AccountLines.loop more CommandError Result_ Marker_ Items
         LedgerSequence submitted state length].
    split; [done|]. split; [by rewrite Hlen|].
    intros [|i] c Hc.
    + simpl in Hc. by simplify_eq.
    + simpl in Hc. specialize (Hsub i c Hc). simpl in *.
      rewrite reported_cons.
      repeat case_decide; try lia; try done.
      rewrite Hsub. f_equal.
      match goal with |- default _ ?x = _ => destruct x eqn:Hi end; [done|].
      apply lookup_ge_None in Hi. simpl in Hi. rewrite !length_fmap in Hi. lia.
Qed.

End AccountLinesFacts.

Section PagedCalls.
Import AccountLines.
Context {Account Hash256 Item Index Rest error : Type}.
Context (sort : list Item -> list Item) (account : Account).
Context (ledgerIndex : Index).

Local Abbreviation page := (@page Hash256 Item Rest).
Local Abbreviation completed := (@completed Hash256 Item Rest error).
Local Abbreviation markers :=
  (λ pages : list page, Some <$> (page_marker <$> pages)).
Local Abbreviation sequences :=
  (λ pages : list page, page_sequence <$> pages).
Local Abbreviation collected :=
  (λ pages : list page, concat (page_items <$> pages)).

(** [AccountLines] follows the markers: when pages 1..k-1 come with a
    marker and page k without, the call submits exactly k
    [account_lines] commands, each with the limit 400, the account and
    the marker of the page before (none for the first); the ledger
    index of a command is the last ledger sequence a page before it
    reported, and the caller's as long as none did; the call returns
    the result of page k with the lines of all pages, in page order,
    sorted.  When instead the command after the marked pages fails, the
    call returns its error and no result: the lines collected are
    dropped. *)
Theorem AccountLines_follows_markers (pages : list page)
    (last : list Item) (sequence : option N) (rst : Rest)
    (replies : list completed) (err : error) (result : option Result) :
  (let d := AccountLines sort account ledgerIndex
              ((more <$> pages) ++ final last sequence rst :: replies) in
   length (submitted d) = S (length pages) ∧
   (∀ i c, submitted d !! i = Some c →
      (None :: markers pages) !! i = Some (Marker c) ∧
      LedgerIndex c = reported (Given ledgerIndex) (take i (sequences pages)) ∧
      Limit c = 400%N ∧ Account_ c = account ∧
      Command_ c = "account_lines") ∧
   state d =
     Returned
       (Some {| LedgerSequence := sequence; Marker_ := None;
                Items := sort (collected pages ++ last);
                rest := rst |})
       None) ∧
  (let d := AccountLines sort account ledgerIndex
              ((more <$> pages) ++
               {| CommandError := Some err; Result_ := result |} :: replies) in
   length (submitted d) = S (length pages) ∧
   state d = Returned None (Some err)).
Proof.
  split.
  - destruct (paged_loop sort "account_lines" account pages [] None
                (Given ledgerIndex) (final last sequence rst :: replies))
      as (Hstate & Hlen & Hsub).
    unfold AccountLines. cbv zeta. rewrite Hstate, Hlen. simpl.
    split; [lia|]. split; [|done].
    intros i c Hc. specialize (Hsub i c Hc). simpl in Hsub.
    assert (Hi : i < S (length pages)).
    { apply lookup_lt_Some in Hc. rewrite Hlen in Hc. simpl in Hc. lia. }
    case_decide as Hlt.
    + subst c. simpl. repeat split.
      match goal with |- ?x = _ => destruct x eqn:Hm end; [done|].
      apply lookup_ge_None in Hm. simpl in Hm. rewrite !length_fmap in Hm. lia.
    + assert (i = length pages) as -> by lia.
      rewrite Nat.sub_diag in Hsub. simpl in Hsub. simplify_eq. simpl.
      repeat split.
      * rewrite <- (length_fmap page_marker), <- (length_fmap Some).
        apply (lookup_length_cons None).
      * by rewrite take_ge by (by rewrite length_fmap).
  - destruct (paged_loop sort "account_lines" account pages [] None
                (Given ledgerIndex)
                ({| CommandError := Some err; Result_ := result |} :: replies))
      as (Hstate & Hlen & _).
    unfold AccountLines. cbv zeta. rewrite Hstate, Hlen. simpl. split; [lia|done].
Qed.

(** [AccountOffers] follows the markers in the same way, with
    [account_offers] commands and the offers of all pages sorted. *)
Theorem AccountOffers_follows_markers (pages : list page)
    (last : list Item) (sequence : option N) (rst : Rest)
    (replies : list completed) (err : error) (result : option Result) :
  (let d := AccountOffers sort account ledgerIndex
              ((more <$> pages) ++ final last sequence rst :: replies) in
   length (submitted d) = S (length pages) ∧
   (∀ i c, submitted d !! i = Some c →
      (None :: markers pages) !! i = Some (Marker c) ∧
      LedgerIndex c = reported (Given ledgerIndex) (take i (sequences pages)) ∧
      Limit c = 400%N ∧ Account_ c = account ∧
      Command_ c = "account_offers") ∧
   state d =
     Returned
       (Some {| LedgerSequence := sequence; Marker_ := None;
                Items := sort (collected pages ++ last);
                rest := rst |})
       None) ∧
  (let d := AccountOffers sort account ledgerIndex
              ((more <$> pages) ++
               {| CommandError := Some err; Result_ := result |} :: replies) in
   length (submitted d) = S (length pages) ∧
   state d = Returned None (Some err)).
Proof.
  split.
  - destruct (paged_loop sort "account_offers" account pages [] None
                (Given ledgerIndex) (final last sequence rst :: replies))
      as (Hstate & Hlen & Hsub).
    unfold AccountOffers. cbv zeta. rewrite Hstate, Hlen. simpl.
    split; [lia|]. split; [|done].
    intros i c Hc. specialize (Hsub i c Hc). simpl in Hsub.
    assert (Hi : i < S (length pages)).
    { apply lookup_lt_Some in Hc. rewrite Hlen in Hc. simpl in Hc. lia. }
    case_decide as Hlt.
    + subst c. simpl. repeat split.
      match goal with |- ?x = _ => destruct x eqn:Hm end; [done|].
      apply lookup_ge_None in Hm. simpl in Hm. rewrite !length_fmap in Hm. lia.
    + assert (i = length pages) as -> by lia.
      rewrite Nat.sub_diag in Hsub. simpl in Hsub. simplify_eq. simpl.
      repeat split.
      * rewrite <- (length_fmap page_marker), <- (length_fmap Some).
        apply (lookup_length_cons None).
      * by rewrite take_ge by (by rewrite length_fmap).
  - destruct (paged_loop sort "account_offers" account pages [] None
                (Given ledgerIndex)
                ({| CommandError := Some err; Result_ := result |} :: replies))
      as (Hstate & Hlen & _).
    unfold AccountOffers. cbv zeta. rewrite Hstate, Hlen. simpl. split; [lia|done].
Qed.

End PagedCalls.

(** ** The ledger stream *)

Section StreamLedgerDataFacts.
Import StreamLedgerData.
Context {Ledger Hash256 LedgerEntry LedgerDataCommand error : Type}.
Context (newBinaryLedgerDataCommand :
           Ledger -> option Hash256 -> LedgerDataCommand).
Context (ReadLedgerEntry : list Byte.byte -> option LedgerEntry * option error).
Context (ledger : Ledger).

Local Abbreviation completed := (@completed Hash256 error).
Local Abbreviation entries := (entries ReadLedgerEntry).
Local Abbreviation new := (newBinaryLedgerDataCommand ledger).
Local Abbreviation loop :=
  (loop newBinaryLedgerDataCommand ReadLedgerEntry ledger).
Local Abbreviation streamLedgerData :=
  (streamLedgerData newBinaryLedgerDataCommand ReadLedgerEntry ledger).
Local Abbreviation markers :=
  (λ pages : list (list LedgerState * Hash256), Some <$> pages.*2).
Local Abbreviation decoded :=
  (λ (p : list LedgerState * Hash256) (les : list (option LedgerEntry)),
     entries p.1 = Some les).

(** The slice of one page has one slot per state of the page, in
    order, holding the entry [ReadLedgerEntry] returned for the decoded
    concatenation of the state's data and index (nil when it returned
    none); no slice is made exactly when the hexadecimal decoding fails
    for a state of the page. *)
Theorem page_slice_slot_per_state (states : list LedgerState) :
  match entries states with
  | Some les =>
      length les = length states ∧
      ∀ i st, states !! i = Some st →
        ∃ b, DecodeString (Data st +:+ Index st) = Some b ∧
          les !! i = Some (ReadLedgerEntry b).1
  | None =>
      ∃ st, st ∈ states ∧ DecodeString (Data st +:+ Index st) = None
  end.
Proof.
  induction states as [|st states IH]; simpl.
  - split; [done|]. by intros i st.
  - destruct (DecodeString (Data st +:+ Index st)) as [b|] eqn:Hb.
    + destruct (StreamLedgerData.entries ReadLedgerEntry states) as [les|].
      * destruct IH as [Hlen Hslot]. split; [simpl; by rewrite Hlen|].
        intros [|i] st' Hst; simplify_eq/=; [by exists b|]. by apply Hslot.
      * destruct IH as (st' & Hin & Hbad). exists st'. split; [|done].
        by right.
    + exists st. split; [by left|done].
Qed.

(** Pages with a marker whose states all decode, followed by whatever
    completes the next commands: the driver sends one slice per page
    and goes on from the marker of the last one. *)
Lemma stream_pages (pages : list (list LedgerState * Hash256))
    (slices : list (list (option LedgerEntry))) marker
    (tail : list completed) demand :
  Forall2 decoded pages slices →
  length pages ≤ demand →
  let d := loop (default marker (last (markers pages))) tail
             (demand - length pages) in
  loop marker ((more <$> pages) ++ tail) demand =
    {| submitted :=
         (new <$> take (length pages) (marker :: markers pages)) ++ submitted d;
       yielded := slices ++ yielded d;
       state := state d |}.
Proof.
  intros Hdec. revert marker demand.
  induction Hdec as [|[states m] les pages slices Hles Hdec IH];
    intros marker demand Hdemand d.
  - subst d. simpl. rewrite Nat.sub_0_r.
    by destruct (loop marker tail demand).
  - subst d. simpl in Hles, Hdemand. destruct demand as [|demand]; [lia|].
    rewrite !fmap_cons, last_cons_default.
    cbn [app StreamLedgerData.loop more page CommandError Result State
         Marker_ fst snd length Nat.sub].
    rewrite Hles. cbv zeta. rewrite IH by lia.
    by cbn [submitted yielded state take fmap list_fmap app].
Qed.

(** [streamLedgerData] follows the markers: when pages 1..k-1 come with
    a marker and page k without, the states of all of them decode and
    the consumer receives what is sent, the driver submits exactly k
    commands (the first with no marker, each next one with the marker
    of the page before), sends one slice per page, in page order, and
    closes the channel.  When the hexadecimal decoding fails on a state
    of the page after the marked ones, the slice of that page is not
    sent, whatever its other states are, no further command is
    submitted, and the driver leaves through its error path. *)
Theorem streamLedgerData_follows_markers
    (pages : list (list LedgerState * Hash256))
    (slices : list (list (option LedgerEntry)))
    (lastStates badStates : list LedgerState)
    (lastSlice : list (option LedgerEntry)) (m : option Hash256)
    (replies : list completed) (demand : nat) :
  Forall2 decoded pages slices →
  entries lastStates = Some lastSlice →
  entries badStates = None →
  length pages < demand →
  (let d := streamLedgerData
              ((more <$> pages) ++ page lastStates None :: replies) demand in
   submitted d = new <$> (None :: markers pages) ∧
   yielded d = slices ++ [lastSlice] ∧
   state d = Closed) ∧
  (let d := streamLedgerData
              ((more <$> pages) ++ page badStates m :: replies) demand in
   length (submitted d) = S (length pages) ∧
   yielded d = slices ∧
   state d = Aborted).
Proof.
  intros Hdec Hlast Hbad Hdemand.
  assert (Hlen : length (markers pages) = length pages)
    by (by rewrite !length_fmap).
  split; unfold StreamLedgerData.streamLedgerData;
    rewrite (stream_pages pages slices) by (done || lia); cbv zeta;
    destruct (demand - length pages) as [|rest] eqn:Hrest; try lia;
    cbn [StreamLedgerData.loop page CommandError Result State Marker_];
    rewrite ?Hlast, ?Hbad; cbn [submitted yielded state].
  - split; [|by split]. change [new ?x] with (new <$> [x]).
    rewrite <- fmap_app. f_equal. rewrite <- Hlen.
    apply markers_before_last.
  - rewrite length_app, length_fmap, length_take, length_cons, app_nil_r.
    simpl. split; [lia|by split].
Qed.

End StreamLedgerDataFacts.

(** ** The hexadecimal encodings *)

Lemma fromHexChar_hexdigit (b : Byte.byte) :
  StreamLedgerData.fromHexChar (SubmitBatch.hexdigit (Byte.to_N b / 16)) =
    Some (Byte.to_N b / 16)%N ∧
  StreamLedgerData.fromHexChar (SubmitBatch.hexdigit (Byte.to_N b mod 16)) =
    Some (Byte.to_N b mod 16)%N ∧
  Byte.of_N (Byte.to_N b / 16 * 16 + Byte.to_N b mod 16) = Some b.
Proof. destruct b; vm_compute; done. Qed.

(** The [TxBlob] of a submit command, [fmt.Sprintf("%X", raw)], is a
    hexadecimal string [hex.DecodeString] accepts, of two digits per
    byte, and decodes back to the serialized transaction. *)
Theorem TxBlob_decodes_to_raw (raw : list Byte.byte) :
  String.length (SubmitBatch.sprintfX raw) = 2 * length raw ∧
  StreamLedgerData.DecodeString (SubmitBatch.sprintfX raw) = Some raw.
Proof.
  induction raw as [|b raw [IHlen IH]]; [done|].
  destruct (fromHexChar_hexdigit b) as (Hhi & Hlo & Hbyte).
  split; [simpl; rewrite IHlen; lia|].
  cbn [SubmitBatch.sprintfX StreamLedgerData.DecodeString].
  by rewrite Hhi, Hlo, Hbyte, IH.
Qed.

(** ** The session *)

Section SessionFacts.
Import Session.
Context {Syncer StreamMsg : Type}.
Context (SyncerId : Syncer -> N).
Context (unmarshalCommand : frame -> Command -> Command * bool).
Context (streamMessageFactory : string -> option (frame -> option StreamMsg)).
Context (unmarshalSyncer : frame -> Syncer -> Syncer * bool).
Context (Marshal : Syncer -> option frame).

Local Abbreviation session := (@session Syncer StreamMsg).
Local Abbreviation step :=
  (step SyncerId unmarshalCommand streamMessageFactory unmarshalSyncer Marshal).
Local Abbreviation exec :=
  (exec SyncerId unmarshalCommand streamMessageFactory unmarshalSyncer Marshal).
Local Abbreviation on_inbound :=
  (on_inbound unmarshalCommand streamMessageFactory unmarshalSyncer).
Local Abbreviation disconnected :=
  (λ c : Syncer, Fail c "ws: server disconnected").

(** C5: when the timeout of request [X] reaches the loop and [X] is
    pending, [X] is removed and failed with the timeout reason and the
    loop goes into its teardown (the other pending commands failing
    with the disconnect reason); when [X] is not pending, the only
    effect is that its canceller entry is dropped: the loop stays in
    its [select] and no command is completed. *)
Theorem timeout_fires (s : session) (w : nat) (wr : watcher) :
  loop s = Select →
  watchers s !! w = Some wr →
  at_ wr = Firing →
  timeout wr = generation s →
  let X := commandID wr in
  ∃ s', step (RecvTimeout w) s = Some s' ∧
    match pending s !! X with
    | Some cmd =>
        pending s' = delete X (pending s) ∧
        events s' = events s ++ Fail cmd "command timed out" ::
                      (disconnected <$> (map_to_list (delete X (pending s))).*2) ∧
        loop s' = Draining ∧ outbound_closed s' = true
    | None =>
        timeoutCancellers s' = delete X (timeoutCancellers s) ∧
        pending s' = pending s ∧
        events s' = events s ∧
        loop s' = Select ∧ outbound_closed s' = outbound_closed s
    end.
Proof.
  intros Hloop Hw Hat Hgen X. simpl. rewrite Hloop, Hw, Hat.
  rewrite Hgen, Nat.eqb_refl. eexists. split; [done|].
  unfold on_timeout, set_at. rewrite Hw. simpl. fold X.
  destruct (pending s !! X) as [cmd|] eqn:HX; simpl; [|done].
  by rewrite <- app_assoc.
Qed.

(** Splits a hypothesis [step l s = Some s'] into the enabled cases. *)
Ltac step_cases H :=
  unfold Session.step, pump, pump_returns, on_cancelled, on_timeout,
    Session.on_inbound, complete, on_command, run_exit, run_return,
    run_start, set_at, WritePump.iteration in H;
  repeat first [progress simpl in * | progress simplify_eq | case_match];
  repeat match goal with
         | E : (_ =? _)%nat = true |- _ => apply Nat.eqb_eq in E
         end;
  try congruence.

(** The frame decoded into the header [response], which lives across
    the iterations of the loop, the route depends on the factory
    registered for the type the header then holds, and on nothing else.
    With a factory, the decoded message goes to [Incoming] and nothing
    is looked up, removed or completed, whatever is pending under the
    header's id (a message that does not decode is logged and dropped).
    Without one, the header's id is looked up in the pending table: a
    missing entry is logged as unexpected and the loop goes on, nothing
    torn down; a found entry is removed and its watcher cancelled. *)
Theorem inbound_routing (s : session) (in_ : frame) (resp : Command) :
  loop s = Select →
  reader s = Forwarding in_ →
  unmarshalCommand in_ (response s) = (resp, true) →
  ∃ s', step RecvInbound s = Some s' ∧
    outbound_closed s' = outbound_closed s ∧
    match streamMessageFactory (Type_ resp) with
    | Some factory =>
        pending s' = pending s ∧
        timeoutCancellers s' = timeoutCancellers s ∧
        match factory in_ with
        | Some msg =>
            loop s' = SendIncoming msg ∧ events s' = events s ∧
            (Incoming_closed s = false → length (Incoming s) < 1000 →
             ∃ s'', step Deliver s' = Some s'' ∧
               Incoming s'' = Incoming s ++ [msg] ∧ loop s'' = Select ∧
               pending s'' = pending s ∧ events s'' = events s)
        | None => loop s' = Select ∧ events s' = events s ++ [Errorln]
        end
    | None =>
        Incoming s' = Incoming s ∧
        match pending s !! Id resp with
        | None =>
            loop s' = Select ∧ pending s' = pending s ∧
            events s' = events s ++ [Errorf resp]
        | Some cmd =>
            pending s' = delete (Id resp) (pending s) ∧
            match timeoutCancellers s !! Id resp with
            | Some canceller =>
                loop s' = Cancelling (Id resp) cmd in_ canceller ∧
                events s' = events s
            | None =>
                loop s' = Select ∧
                events s' = events s ++
                  match unmarshalSyncer in_ cmd with
                  | (cmd', true) => [Done cmd']
                  | (cmd', false) =>
                      [Errorln; Fail cmd' "error occured while unmarshalling"]
                  end
            end
        end
    end.
Proof.
  intros Hloop Hreader Hresp. simpl. rewrite Hloop, Hreader.
  eexists. split; [done|]. unfold Session.on_inbound. simpl. rewrite Hresp.
  simpl. destruct (streamMessageFactory (Type_ resp)) as [factory|].
  - destruct (factory in_) as [msg|]; simpl; [|done].
    repeat split. intros Hopen Hroom.
    rewrite Hopen, (proj2 (Nat.ltb_lt _ _) Hroom).
    by eexists.
  - destruct (pending s !! Id resp) as [cmd|]; simpl; [|done].
    destruct (timeoutCancellers s !! Id resp); simpl; [done|].
    unfold complete. by destruct (unmarshalSyncer in_ cmd) as [cmd' []].
Qed.

(** C4: the step that takes the loop into its teardown closes
    [outbound] and fails every entry then left in the pending table,
    once each, with the disconnect reason (every entry pending before
    the step is left, but for the command whose timeout started the
    teardown, failed with the timeout reason).  In the teardown the
    loop does nothing but receive from [inbound], dropping the frames,
    until [inbound] is closed; it then starts [reConnect] when
    reconnection is enabled and [Close] was not called, and closes
    [Incoming] otherwise. *)
Theorem teardown :
  (∀ (l : label) (s s' : session),
     step l s = Some s' → loop s ≠ Draining → loop s' = Draining →
     outbound_closed s' = true ∧
     (∀ id cmd, pending s' !! id = Some cmd → disconnected cmd ∈ events s') ∧
     ∃ pre, events s' =
              events s ++ pre ++ (disconnected <$> (map_to_list (pending s')).*2) ∧
       ((pending s' = pending s ∧ (pre = [] ∨ pre = [Errorln])) ∨
        (∃ w wr cmd, l = RecvTimeout w ∧ watchers s !! w = Some wr ∧
           pending s !! commandID wr = Some cmd ∧
           pending s' = delete (commandID wr) (pending s) ∧
           pre = [Fail cmd "command timed out"]))) ∧
  (∀ (l : label) (s s' : session),
     step l s = Some s' → loop s = Draining →
     events s' = events s ∧ pending s' = pending s ∧
     ((loop s' = Draining ∧ Incoming_closed s' = Incoming_closed s ∧
       (l = RecvInbound → reader s' = Reading ∧ Incoming s' = Incoming s)) ∨
      (l = RecvInbound ∧ inbound_closed s = true ∧
       if reConn s && negb (shutdown s)
       then loop s' = Reconnecting ∧ Incoming_closed s' = Incoming_closed s
       else loop s' = Exited ∧ Incoming_closed s' = true))).
Proof.
  assert (Hall : ∀ (m : gmap N Syncer) evs id cmd,
             m !! id = Some cmd →
             disconnected cmd ∈ evs ++ (disconnected <$> (map_to_list m).*2)).
  { intros m evs id cmd Hm. apply elem_of_app. right.
    apply list_elem_of_fmap. exists cmd. split; [done|].
    apply list_elem_of_fmap. exists (id, cmd). split; [done|].
    by apply elem_of_map_to_list. }
  split.
  - intros l s s' Hstep Hout Hin. step_cases Hstep; try done.
    all: split; [done|]; split; [intros ? ? Hp; by eapply Hall|].
    + exists []. split; [done|]. left. by split; [|left].
    + exists []. split; [done|]. left. by split; [|left].
    + exists [Errorln]. split; [by rewrite <- app_assoc|].
      left. by split; [|right].
    + exists [Errorln]. split; [by rewrite <- app_assoc|].
      left. by split; [|right].
    + eexists [Fail _ "command timed out"].
      split; [by rewrite <- app_assoc|]. right. by eexists _, _, _.
  - intros l s s' Hstep Hin. step_cases Hstep; try done;
      try (split; [done|]; split; [done|]).
    all: try (left; by repeat split).
    all: right; repeat split; try done.
Qed.

(** *** What no schedule gets out of *)

Lemma exec_invariant (P : session → Prop) :
  (∀ l s s', P s → step l s = Some s' → P s') →
  ∀ ls s s', P s → exec ls s = Some s' → P s'.
Proof.
  intros Hstep ls. induction ls as [|l ls IH]; intros s s' HP Hexec.
  - by simplify_eq/=.
  - simpl in Hexec. destruct (step l s) as [s1|] eqn:Hl; [|done].
    eapply IH; [|done]. by eapply Hstep.
Qed.

(** A stalled [run] stays stalled, and nothing more is completed or
    logged. *)
Lemma stalled_step id cmd in_ canceller evs l (s s' : session) :
  stalled id cmd in_ canceller s ∧ events s = evs →
  step l s = Some s' →
  stalled id cmd in_ canceller s' ∧ events s' = evs.
Proof.
  unfold stalled. intros [[Hloop Hnone] Hevs] Hstep.
  step_cases Hstep; try (split; [split|]; done);
    try match goal with
        | Hw : watchers s !! _ = Some ?wr, Hat : at_ ?wr = Waiting,
          Hc : timeoutCanceller ?wr = canceller |- _ =>
            by destruct (Hnone _ _ Hw Hc)
        end.
  split; [split; [done|]|done]. intros w' wr' Hw' Hc.
    destruct (decide (w' = w)) as [->|Hne].
  - rewrite list_lookup_insert_eq in Hw' by (by eapply lookup_lt_Some).
    by simplify_eq/=.
  - rewrite list_lookup_insert_ne in Hw' by done. by eapply Hnone.
Qed.

(** A [Close] that hangs keeps hanging. *)
Lemma hung_step l (s s' : session) : hung s → step l s = Some s' → hung s'.
Proof.
  unfold hung. intros (Hcloser & Hin & Hopen & Hloop) Hstep.
  step_cases Hstep; done.
Qed.

(** A watcher that outlives [run] never returns. *)
Lemma leaked_step w l (s s' : session) :
  leaked w s → step l s = Some s' → leaked w s'.
Proof.
  unfold leaked, live_watcher. intros (Hloop & wr & Hw & Hlive) Hstep.
  step_cases Hstep; try (split; [done|]; by exists wr).
  split; [done|].
  match goal with |- ∃ _, <[?i:=?x]> _ !! _ = _ ∧ _ =>
    destruct (decide (w = i)) as [->|Hne]; [exists x|exists wr] end.
  - by rewrite list_lookup_insert_eq by (by eapply lookup_lt_Some).
  - by rewrite list_lookup_insert_ne.
Qed.

Lemma exec_app ls1 ls2 (s : session) :
  exec (ls1 ++ ls2) s = exec ls1 s ≫= exec ls2.
Proof.
  revert s. induction ls1 as [|l ls1 IH]; intros s; [done|].
  simpl. by destruct (step l s).
Qed.

(** A reply to a pending command whose canceller is registered takes
    [run] to its send on the canceller. *)
Lemma reply_received (s : session) in_ resp cmd canceller :
  loop s = Select →
  reader s = Forwarding in_ →
  unmarshalCommand in_ (response s) = (resp, true) →
  streamMessageFactory (Type_ resp) = None →
  pending s !! Id resp = Some cmd →
  timeoutCancellers s !! Id resp = Some canceller →
  ∃ s', step RecvInbound s = Some s' ∧
    loop s' = Cancelling (Id resp) cmd in_ canceller ∧
    watchers s' = watchers s ∧ events s' = events s.
Proof.
  intros Hloop Hreader Hresp Hfactory Hpending Hcanceller.
  simpl. rewrite Hloop, Hreader. eexists. split; [done|].
  unfold Session.on_inbound. simpl. rewrite Hresp. simpl.
  rewrite Hfactory, Hpending. simpl. by rewrite Hcanceller.
Qed.

(** The hand-off of a command to a write pump whose send succeeds:
    the pump writes or logs, and the watcher of the command starts. *)
Lemma handed_off (s : session) id command canceller :
  loop s = Handoff id command canceller →
  writers s !! generation s = Some WritePump.Selecting →
  ∃ acts, step (HandOff false) s =
    Some (set_written (written s ++ acts)
            (set_loop Select
               (set_watchers
                  (watchers s ++
                   [{| commandID := id; timeoutCanceller := canceller;
                       timeout := generation s; at_ := Waiting |}]) s))).
Proof.
  intros Hloop Hpump. simpl. rewrite Hloop, Hpump. unfold pump. simpl.
  destruct (Marshal command); by eexists.
Qed.

(** Runs the next transition of the schedule in the goal: the state is
    a record of values again afterwards, its maps left as they are
    written. *)
Ltac compute_step t :=
  eval lazy beta iota zeta delta [
      Session.step Session.Incoming Session.Incoming_closed Session.outgoing
      Session.outgoing_closed Session.reConn Session.shutdown
      Session.generation Session.outbound_closed Session.inbound_closed
      Session.writePumpStopped Session.pending Session.timeoutCancellers
      Session.response Session.loop Session.writers Session.reader
      Session.watchers Session.closer Session.ws_open Session.written
      Session.cancellers_made Session.events Session.set_Incoming
      Session.set_Incoming_closed Session.set_outgoing
      Session.set_outgoing_closed Session.set_shutdown
      Session.set_generation Session.set_outbound_closed
      Session.set_inbound_closed Session.set_writePumpStopped
      Session.set_pending Session.set_timeoutCancellers
      Session.set_response Session.set_loop Session.set_writers
      Session.set_reader Session.set_watchers Session.set_closer
      Session.set_ws_open Session.set_written Session.set_cancellers_made
      Session.set_events Session.commandID Session.timeoutCanceller
      Session.timeout Session.at_ Session.set_at Session.on_command
      Session.run_return Session.run_exit Session.run_start
      Session.pump_returns Session.pump Session.NewRemote Session.zero
      WritePump.iteration lookup list_lookup insert list_insert app
      length Nat.eqb Nat.ltb Nat.leb orb andb negb] in t.

Ltac run :=
  cbn [mbind option_bind Session.exec];
  lazymatch goal with
  | |- context [Session.step ?a ?b ?c ?d ?e ?l ?s] =>
      let r := compute_step (Session.step a b c d e l s) in
      change (Session.step a b c d e l s) with r
  end;
  repeat match goal with
         | |- context [@map_insert ?K ?A ?M ?H ?k ?v ?m] =>
             change (@map_insert K A M H k v m)
               with (@insert K A M (@map_insert K A M H) k v m)
         end;
  cbn [mbind option_bind Session.exec].

(** The schedule [reply_after_timer] runs, and leaves [run] stalled
    with nothing completed. *)
Lemma reply_after_timer_stalls (enableReconnection : bool) (cmd : Syncer)
    (in_ : frame) (resp : Command) :
  unmarshalCommand in_ zero = (resp, true) →
  streamMessageFactory (Type_ resp) = None →
  Id resp = SyncerId cmd →
  ∃ s, exec (reply_after_timer cmd in_) (NewRemote enableReconnection) = Some s ∧
    stalled (SyncerId cmd) cmd in_ 0 s ∧ events s = [].
Proof.
  intros Hresp Hfactory Hid. unfold reply_after_timer. do 2 run.
  match goal with |- context [step (HandOff false) ?s] =>
    destruct (handed_off s (SyncerId cmd) cmd 0) as [acts ->]; [done..|] end.
  do 2 run.
  match goal with |- context [step RecvInbound ?s] =>
    destruct (reply_received s in_ resp cmd 0)
      as (s' & -> & Hloop & Hw & Hevs); try done;
      cbn [pending timeoutCancellers response];
      rewrite ?Hresp, ?Hfactory, ?Hid, ?lookup_insert_eq; try done end.
  exists s'. split; [done|]. split; [|done]. split; [by rewrite <- Hid|].
  rewrite Hw. clear. intros [|w] wr Hlook _; [|discriminate Hlook].
  cbn in Hlook. injection Hlook as <-. cbn. discriminate.
Qed.

(** The schedule [close_while_reconnecting] runs, and leaves [Close]
    hanging. *)
Lemma close_while_reconnecting_hangs :
  ∃ s : session,
    exec close_while_reconnecting (NewRemote true) = Some s ∧ hung s.
Proof. unfold close_while_reconnecting. do 6 run. by eexists. Qed.

(** The schedule [close_with_command_in_flight] runs: [Close] returns
    while the watcher of the command is still waiting. *)
Lemma close_with_command_in_flight_leaks (enableReconnection : bool)
    (cmd : Syncer) :
  ∃ s : session,
    exec (close_with_command_in_flight cmd) (NewRemote enableReconnection)
      = Some s ∧
    closer s = CloseReturned ∧ leaked 0 s.
Proof.
  unfold close_with_command_in_flight. do 2 run.
  match goal with |- context [step (HandOff false) ?s] =>
    destruct (handed_off s (SyncerId cmd) cmd 0) as [acts ->]; [done..|] end.
  destruct enableReconnection; do 7 run;
    (eexists; split; [done|]; split; [done|]; split; [done|]);
    by eexists.
Qed.

(** C2, violated by the code: with the reply to a command handled
    after the timer of its watcher fired, [run] reaches its send on the
    canceller, which no watcher receives any more: the send is not
    enabled, and under every further schedule [run] stays blocked in
    it. *)
Theorem cancel_send_blocks_forever (enableReconnection : bool) (cmd : Syncer)
    (in_ : frame) (resp : Command) :
  unmarshalCommand in_ zero = (resp, true) →
  streamMessageFactory (Type_ resp) = None →
  Id resp = SyncerId cmd →
  ∃ s, exec (reply_after_timer cmd in_) (NewRemote enableReconnection) = Some s ∧
    loop s = Cancelling (SyncerId cmd) cmd in_ 0 ∧
    (∀ w, step (Cancel w) s = None) ∧
    ∀ ls s', exec ls s = Some s' →
      loop s' = Cancelling (SyncerId cmd) cmd in_ 0.
Proof.
  intros Hresp Hfactory Hid.
  destruct (reply_after_timer_stalls enableReconnection cmd in_ resp)
    as (s & Hexec & Hstalled & Hevs); [done..|].
  exists s. split; [done|]. split; [apply Hstalled|]. split.
  - intros w. destruct (step (Cancel w) s) as [s'|] eqn:Hstep; [|done].
    destruct Hstalled as [Hloop Hnone]. exfalso. clear Hexec.
    simpl in Hstep. rewrite Hloop in Hstep.
    destruct (watchers s !! w) as [wr|] eqn:Hw; [|done].
    destruct (at_ wr) eqn:Hat; try done.
    destruct (Nat.eqb_spec (timeoutCanceller wr) 0); [|done].
    by eapply Hnone.
  - intros ls s' Hrun.
    eapply (exec_invariant
              (λ s, stalled (SyncerId cmd) cmd in_ 0 s ∧ events s = []));
      [intros; by eapply stalled_step|by split|done].
Qed.

(** C1, violated by the code: in the same schedule the command was
    submitted and its reply received, yet neither [Done] nor [Fail] is
    called on it, then or under any further schedule. *)
Theorem stalled_command_never_completed (enableReconnection : bool)
    (cmd : Syncer) (in_ : frame) (resp : Command) :
  unmarshalCommand in_ zero = (resp, true) →
  streamMessageFactory (Type_ resp) = None →
  Id resp = SyncerId cmd →
  ∃ s, exec (reply_after_timer cmd in_) (NewRemote enableReconnection) = Some s ∧
    ∀ ls s', exec ls s = Some s' →
      completions SyncerId (SyncerId cmd) (events s') = 0.
Proof.
  intros Hresp Hfactory Hid.
  destruct (reply_after_timer_stalls enableReconnection cmd in_ resp)
    as (s & Hexec & Hstalled & Hevs); [done..|].
  exists s. split; [done|]. intros ls s' Hrun.
  assert (stalled (SyncerId cmd) cmd in_ 0 s' ∧ events s' = []) as [_ ->];
    [|done].
  eapply (exec_invariant
            (λ s, stalled (SyncerId cmd) cmd in_ 0 s ∧ events s = []));
    [intros; by eapply stalled_step|by split|done].
Qed.

(** C3, violated by the code: called while [reConnect] runs, [Close]
    never returns, whatever happens next; and called with a command in
    flight it returns while the watcher of that command is a live
    goroutine, which then never returns. *)
Theorem Close_hangs_or_returns_early :
  (∃ s : session,
     exec close_while_reconnecting (NewRemote true) = Some s ∧
     closer s = Ranging ∧
     ∀ ls s', exec ls s = Some s' → closer s' = Ranging) ∧
  (∀ (enableReconnection : bool) (cmd : Syncer),
     ∃ s : session,
       exec (close_with_command_in_flight cmd) (NewRemote enableReconnection)
         = Some s ∧
       closer s = CloseReturned ∧ live_watcher s 0 ∧
       ∀ ls s', exec ls s = Some s' → live_watcher s' 0).
Proof.
  split.
  - destruct close_while_reconnecting_hangs as (s & Hexec & Hhung).
    exists s. split; [done|]. split; [apply Hhung|].
    intros ls s' Hrun.
    eapply (exec_invariant hung); [intros; by eapply hung_step|done|done].
  - intros enableReconnection cmd.
    destruct (close_with_command_in_flight_leaks enableReconnection cmd)
      as (s & Hexec & Hret & Hleak).
    exists s. split; [done|]. split; [done|]. split; [apply Hleak|].
    intros ls s' Hrun.
    eapply (exec_invariant (leaked 0)); [intros; by eapply leaked_step|done|done].
Qed.

(** *** No command is completed twice *)

Local Abbreviation completions := (completions SyncerId).
Local Abbreviation outstanding := (outstanding SyncerId).
Local Abbreviation keyed := (keyed SyncerId).

Lemma completions_app id evs1 evs2 :
  completions id (evs1 ++ evs2) = completions id evs1 + completions id evs2.
Proof. apply sum_list_with_app. Qed.

Lemma sum_pending id (m : gmap N Syncer) :
  (∀ k c, m !! k = Some c → SyncerId c = k) →
  sum_list_with (λ kc : N * Syncer, if (SyncerId kc.2 =? id)%N then 1 else 0)
    (map_to_list m) =
    match m !! id with Some _ => 1 | None => 0 end.
Proof.
  induction m as [|k c m Hk IH] using map_ind; intros Hkeyed.
  - by rewrite map_to_list_empty, lookup_empty.
  - rewrite map_to_list_insert by done. simpl.
    rewrite IH by (intros k' c' Hc'; apply Hkeyed;
                   rewrite lookup_insert_ne; [done|congruence]).
    rewrite (Hkeyed k c) by apply lookup_insert_eq.
    destruct (N.eqb_spec k id) as [->|Hne].
    + by rewrite lookup_insert_eq, Hk.
    + by rewrite lookup_insert_ne.
Qed.

(** The teardown fails the command pending under an id once. *)
Lemma completions_disconnected id (m : gmap N Syncer) :
  (∀ k c, m !! k = Some c → SyncerId c = k) →
  completions id (disconnected <$> (map_to_list m).*2) =
    match m !! id with Some _ => 1 | None => 0 end.
Proof.
  intros Hkeyed. rewrite <- (sum_pending id m Hkeyed).
  unfold Session.completions.
  induction (map_to_list m) as [|[k c] l IH]; csimpl; [done|by rewrite IH].
Qed.

Lemma keyed_step l (s s' : session) :
  keyed s → step l s = Some s' → keyed s'.
Proof.
  unfold Session.keyed. intros [Hpending Hloop] Hstep.
  step_cases Hstep; (split; [intros k c' Hk | intros; simplify_eq]);
    try (by eapply Hpending); try (by eapply Hloop); try congruence.
  all: try match goal with
           | Hk : <[_:=_]> _ !! _ = Some _ |- _ =>
               apply lookup_insert_Some in Hk as [[<- <-]|[_ Hk]];
               [done|by eapply Hpending]
           | Hk : delete _ _ !! _ = Some _ |- _ =>
               apply lookup_delete_Some in Hk as [_ Hk]; by eapply Hpending
           end.
Qed.

Lemma accounted_step id l (s s' : session) :
  (∀ in_ cmd, SyncerId (unmarshalSyncer in_ cmd).1 = SyncerId cmd) →
  keyed s →
  step l s = Some s' →
  outstanding id s' + completions id (events s') ≤
    outstanding id s + completions id (events s) + submissions SyncerId id [l].
Proof.
  intros Hcodec [Hpending Hloop] Hstep.
  assert (Hdeleted : ∀ X k c, delete X (pending s) !! k = Some c → SyncerId c = k)
    by (intros X k c [_ Hk]%lookup_delete_Some; by eapply Hpending).
  set (bound := λ s' : session,
         outstanding id s' + completions id (events s') ≤
           outstanding id s + completions id (events s) +
           submissions SyncerId id [l]).
  change (bound s'). step_cases Hstep; subst bound; cbv beta;
    unfold Session.outstanding, Session.queued, submissions; simpl.
  all: repeat match goal with
              | H : outgoing _ = _ |- _ => rewrite H
              | H : loop _ = _ |- _ => rewrite H
              | H : unmarshalSyncer ?f ?c = (?c', _) |- _ =>
                  let E := fresh in
                  pose proof (Hcodec f c) as E; rewrite H in E; simpl in E;
                  clear H
              end; simpl.
  all: rewrite ?sum_list_with_app, ?completions_app,
         ?completions_disconnected by (done || apply Hdeleted);
       rewrite ?lookup_insert, ?lookup_delete, ?lookup_empty; simpl.
  all: repeat match goal with
              | H : pending _ !! ?k = Some ?c |- _ =>
                  lazymatch goal with
                  | _ : SyncerId c = k |- _ => fail
                  | _ => pose proof (Hpending k c H)
                  end
              | Hl : ∀ id cmd in_ c, Cancelling _ _ _ _ = Cancelling id cmd in_ c → _
                |- _ => pose proof (Hl _ _ _ _ eq_refl); clear Hl
              end.
  all: repeat match goal with
              | |- context [(?a =? ?b)%N] => destruct (N.eqb_spec a b)
              end; subst.
  all: repeat case_decide; subst; try done.
  all: repeat match goal with
              | H : pending _ !! _ = _ |- _ => rewrite H
              end.
  all: repeat case_match; try lia; try congruence.
Qed.

Lemma accounted_exec id ls (s s' : session) :
  (∀ in_ cmd, SyncerId (unmarshalSyncer in_ cmd).1 = SyncerId cmd) →
  keyed s →
  exec ls s = Some s' →
  outstanding id s' + completions id (events s') ≤
    outstanding id s + completions id (events s) + submissions SyncerId id ls.
Proof.
  intros Hcodec. revert s. induction ls as [|l ls IH]; intros s Hkeyed Hexec.
  - simplify_eq/=. unfold submissions. simpl. lia.
  - simpl in Hexec. destruct (step l s) as [s1|] eqn:Hstep; [|done].
    pose proof (accounted_step id l s s1 Hcodec Hkeyed Hstep) as Hone.
    pose proof (IH s1 (keyed_step l s s1 Hkeyed Hstep) Hexec) as Hrest.
    change (l :: ls) with ([l] ++ ls). unfold submissions in *.
    rewrite sum_list_with_app. lia.
Qed.

(** Exactly-once completion, the half that holds: when decoding a reply
    onto a command leaves its id alone, a session calls [Done] and
    [Fail] on the commands of an id no more often than commands of that
    id were submitted; so a command whose id is submitted once is never
    completed twice, and never by both. *)
Theorem completed_at_most_once (enableReconnection : bool) (id : N)
    (ls : list label) (s : session) :
  (∀ in_ cmd, SyncerId (unmarshalSyncer in_ cmd).1 = SyncerId cmd) →
  exec ls (NewRemote enableReconnection) = Some s →
  completions id (events s) ≤ submissions SyncerId id ls.
Proof.
  intros Hcodec Hexec.
  set (s0 := NewRemote enableReconnection : session) in *.
  assert (Hempty : pending s0 = ∅) by done.
  assert (Hkeyed : keyed s0).
  { split; [intros k c Hk|done]. by rewrite Hempty, lookup_empty in Hk. }
  pose proof (accounted_exec id ls s0 s Hcodec Hkeyed Hexec) as Hbound.
  assert (Hzero : outstanding id s0 + completions id (events s0) = 0).
  { unfold Session.outstanding. rewrite Hempty, lookup_empty. done. }
  lia.
Qed.

(** *** What every reachable state satisfies *)

(** *** Invariants of the reachable states *)

Lemma pumps_consistent_step l (s s' : session) :
  pumps_consistent s → step l s = Some s' → pumps_consistent s'.
Proof.
  unfold pumps_consistent. intros [Hlen Hstopped] Hstep.
  step_cases Hstep; try (split; [done|]; try done).
  all: try (split; [rewrite ?length_insert, ?length_app; simpl; lia|]).
  all: intros Hs; try done; try (by apply Hstopped);
    try (specialize (Hstopped Hs); congruence).
  all: match goal with
       | |- <[?i:=_]> _ !! ?g = _ =>
           destruct (decide (i = g)) as [Heq|Hne];
           [try rewrite Heq; rewrite list_lookup_insert_eq by lia
           |rewrite list_lookup_insert_ne by done]
       end; try done; try (by apply Hstopped);
    try (specialize (Hstopped Hs); congruence).
Qed.

Lemma shutdown_ordered_step l (s s' : session) :
  shutdown_ordered s → step l s = Some s' → shutdown_ordered s'.
Proof.
  unfold shutdown_ordered.
  intros (Hreader & Hdrain & Hclosed & Hreturned) Hstep.
  step_cases Hstep.
  all: try (destruct (reConn s), (shutdown s); simpl).
  all: try naive_solver congruence.
Qed.

Lemma cancellers_cover_step l (s s' : session) :
  cancellers_cover s → step l s = Some s' → cancellers_cover s'.
Proof.
  unfold cancellers_cover. intros [Hcover Hout] Hstep.
  step_cases Hstep.
  all: split; [intros Hrun id' Hid'; try done|intros; simplify_eq; try done].
  all: try congruence.
  all: try (by eapply Hout).
  all: try match goal with
           | H : loop _ = _, Hrun : running (loop _) = true |- _ =>
               rewrite H in Hrun; simpl in Hrun; try done
           end.
  all: try match goal with
           | H : loop _ = _ |- _ =>
               rewrite H in Hcover; simpl in Hcover
           end.
  all: try specialize (Hcover eq_refl).
  all: try specialize (Hout _ _ _ _ eq_refl).
  all: try (by apply Hcover).
  all: try (by rewrite lookup_delete_eq).
  all: try (rewrite lookup_empty in Hid'; by destruct Hid').
  all: try (rewrite lookup_insert_is_Some in Hid'; rewrite lookup_insert_is_Some;
            destruct Hid' as [?|[? ?]]; [by left|right; split; [done|by apply Hcover]]).
  all: try (apply lookup_delete_is_Some in Hid' as [? Hid']; by apply Hcover).
  all: try (rewrite lookup_delete_is_Some; split; [|by apply Hcover];
            intros <-; destruct Hid' as [? Hid']; congruence).
Qed.

Lemma handoff_registered_step l (s s' : session) :
  handoff_registered s → step l s = Some s' → handoff_registered s'.
Proof.
  unfold handoff_registered. intros Hreg Hstep.
  step_cases Hstep; intros; simplify_eq; try congruence.
  all: try (by eapply Hreg).
  all: try (by rewrite !lookup_insert_eq).
Qed.

Lemma watchers_dated_step l (s s' : session) :
  watchers_dated s → step l s = Some s' → watchers_dated s'.
Proof.
  unfold watchers_dated. intros [Hdated Hnext] Hstep.
  step_cases Hstep.
  all: (split; [intros w' wr' Hw'|intros; simplify_eq; try congruence]).
  all: try (by eapply Hdated).
  all: try (by eapply Hnext).
  all: try (simpl; lia).
  all: try (pose proof (Hdated _ _ Hw'); lia).
  all: try (apply lookup_snoc_Some in Hw' as [[_ Hw']|[_ <-]]; simpl;
            [pose proof (Hdated _ _ Hw')|pose proof (Hnext _ _ _ eq_refl)]; lia).
  all: apply list_lookup_insert_Some in Hw' as [(<- & <- & _)|[_ Hw']]; simpl;
    by eapply Hdated.
Qed.


Lemma out_of_reach_step canceller gen l (s s' : session) :
  out_of_reach canceller gen s → step l s = Some s' →
  out_of_reach canceller gen s'.
Proof.
  unfold out_of_reach. intros (Hgen & Hmade & Hrun) Hstep.
  step_cases Hstep.
  all: simpl.
  all: try match goal with
           | H : loop _ = _ |- _ =>
               try rewrite H in Hrun; try rewrite H; simpl in Hrun
           end.
  all: simpl.
  all: try specialize (Hrun eq_refl) as (Hlater & Htable & Hhand & Hsend).
  all: try (split; [simpl; lia|]; split; [simpl; lia|]).
  all: try done.
  all: intros _; split; [simpl; lia|].
  all: try done.
  all: repeat split; try done.
  all: try (intros id' [[_ ?]|[_ ?]]%lookup_insert_Some; [lia|by eapply Htable]).
  all: try (intros id' [_ ?]%lookup_delete_Some; by eapply Htable).
  all: try (intros ? ? [= <- <- <-]; lia).
  all: try (intros ? ? ? [= <- <- <- <-]).
  by eapply Htable.
Qed.

(** A watcher keeps its command and its channels, and returns only by
    meeting [run] on one of them. *)
Lemma watcher_step w wr l (s s' : session) :
  watchers s !! w = Some wr → step l s = Some s' →
  ∃ wr', watchers s' !! w = Some wr' ∧
    commandID wr' = commandID wr ∧
    timeoutCanceller wr' = timeoutCanceller wr ∧
    timeout wr' = timeout wr ∧
    (at_ wr' = Gone →
     at_ wr = Gone ∨
     (∃ id cmd in_, loop s = Cancelling id cmd in_ (timeoutCanceller wr)) ∨
     (loop s = Select ∧ timeout wr = generation s)).
Proof.
  intros Hw Hstep. step_cases Hstep.
  all: try (exists wr; repeat split; try done; by left).
  all: try (exists wr; split; [by apply lookup_app_l_Some|];
            repeat split; try done; by left).
  all: match goal with
       | |- ∃ _, <[?i:=?x]> _ !! _ = _ ∧ _ =>
           destruct (decide (w = i)) as [->|Hne];
           [exists x; rewrite list_lookup_insert_eq by (by eapply lookup_lt_Some)
           |exists wr; rewrite list_lookup_insert_ne by done]
       end; simplify_eq; simpl.
  all: repeat split; try done; try (by left).
  all: intros _; right; try (left; by eexists _, _, _); try (by right).
Qed.

Lemma orphan_step w l (s s' : session) :
  orphan w s → step l s = Some s' → orphan w s'.
Proof.
  unfold orphan. intros (wr & Hw & Hlive & Hout) Hstep.
  destruct (watcher_step w wr l s s' Hw Hstep)
    as (wr' & Hw' & _ & Hc & Ht & Hgone).
  exists wr'. split; [done|]. rewrite Hc, Ht.
  split; [|by eapply out_of_reach_step].
  intros Hat. destruct Hout as (_ & _ & Hrun).
  destruct (Hgone Hat) as [?|[(id & cmd & in_ & Hloop)|[Hloop Hgen]]]; [done|..];
    rewrite Hloop in Hrun; destruct (Hrun eq_refl) as (Hlater & _ & _ & Hsend).
  - by eapply Hsend.
  - lia.
Qed.

(** An orphan is met by [run] on neither of its channels. *)
Lemma orphan_unmet w (s : session) :
  orphan w s →
  step (RecvTimeout w) s = None ∧ step (Cancel w) s = None.
Proof.
  intros (wr & Hw & Hlive & _ & _ & Hrun). simpl. rewrite Hw. split.
  - destruct (loop s) eqn:Hloop; try done.
    destruct (Hrun eq_refl) as (Hlater & _).
    destruct (at_ wr); try done.
    by destruct (Nat.eqb_spec (timeout wr) (generation s)); [lia|].
  - destruct (loop s) as [| | |id cmd in_ canceller| | |] eqn:Hloop; try done.
    destruct (Hrun eq_refl) as (_ & _ & _ & Hsend).
    destruct (at_ wr); try done.
    destruct (Nat.eqb_spec (timeoutCanceller wr) canceller) as [<-|]; [|done].
    by destruct (Hsend id cmd in_).
Qed.


(** Once [run] and [reConnect] have returned, nothing is completed or
    logged, nothing is sent on [r.Incoming], which stays as open or
    closed as it is, and nothing is received from [r.outgoing]. *)
Lemma exited_step l (s s' : session) :
  loop s = Exited → step l s = Some s' →
  loop s' = Exited ∧ events s' = events s ∧
  Incoming_closed s' = Incoming_closed s ∧
  (∃ n, Incoming s' = drop n (Incoming s)) ∧
  outgoing s' = outgoing s ++ submitted [l].
Proof.
  intros Hloop Hstep. step_cases Hstep.
  all: repeat split; try done; try (by rewrite app_nil_r).
  all: try (by exists 0).
  all: by exists 1.
Qed.

Lemma exited_exec ls (s s' : session) :
  loop s = Exited → exec ls s = Some s' →
  loop s' = Exited ∧ events s' = events s ∧
  Incoming_closed s' = Incoming_closed s ∧
  (∃ n, Incoming s' = drop n (Incoming s)) ∧
  outgoing s' = outgoing s ++ submitted ls.
Proof.
  revert s. induction ls as [|l ls IH]; intros s Hloop Hexec.
  - simplify_eq/=. repeat split; try done; [by exists 0|by rewrite app_nil_r].
  - simpl in Hexec. destruct (step l s) as [s1|] eqn:Hstep; [|done].
    destruct (exited_step l s s1 Hloop Hstep)
      as (Hloop1 & Hev1 & Hcl1 & [n1 Hin1] & Hout1).
    destruct (IH s1 Hloop1 Hexec) as (Hloop' & Hev' & Hcl' & [n Hin'] & Hout').
    repeat split; try congruence.
    + exists (n1 + n). by rewrite Hin', Hin1, drop_drop.
    + rewrite Hout', Hout1, <- app_assoc. f_equal.
      change (l :: ls) with ([l] ++ ls). unfold submitted.
      by rewrite omap_app.
Qed.

Lemma reachable (enableReconnection : bool) ls (s : session) :
  exec ls (NewRemote enableReconnection) = Some s →
  pumps_consistent s ∧ shutdown_ordered s ∧ cancellers_cover s ∧
  handoff_registered s ∧ watchers_dated s.
Proof.
  apply (exec_invariant
           (λ s, pumps_consistent s ∧ shutdown_ordered s ∧
                 cancellers_cover s ∧ handoff_registered s ∧
                 watchers_dated s)).
  - intros l s1 s2 (H1 & H2 & H3 & H4 & H5) Hstep.
    eauto 10 using pumps_consistent_step, shutdown_ordered_step,
      cancellers_cover_step, handoff_registered_step, watchers_dated_step.
  - repeat split; try done.
    intros _ id [? Hid]. simpl in Hid. by rewrite lookup_empty in Hid.
Qed.

(** *** What the session does under every schedule *)

(** When [Close] has returned, [run] has returned for good, the read
    pump has returned and [outbound] is closed; [r.Incoming] is closed
    and empty, and under every further schedule it stays so and nothing
    more is completed or logged. *)
Theorem Close_returns_after_run (enableReconnection : bool)
    (ls : list label) (s : session) :
  exec ls (NewRemote enableReconnection) = Some s →
  closer s = CloseReturned →
  loop s = Exited ∧ reader s = ReaderReturned ∧ outbound_closed s = true ∧
  Incoming_closed s = true ∧ Incoming s = [] ∧
  ∀ ls' s', exec ls' s = Some s' →
    loop s' = Exited ∧ Incoming s' = [] ∧ Incoming_closed s' = true ∧
    events s' = events s.
Proof.
  intros Hexec Hcloser.
  destruct (reachable _ _ _ Hexec) as (_ & Hshut & _).
  destruct Hshut as (Hreader & _ & Hclosed & Hreturned).
  destruct (Hreturned Hcloser) as [Hinc Hempty].
  destruct (Hclosed Hinc) as (Hloop & Hinb & Hout).
  split; [done|]. split; [by apply Hreader|]. do 3 (split; [done|]).
  intros ls' s' Hexec'.
  destruct (exited_exec ls' s s' Hloop Hexec') as (? & ? & ? & [n Hn] & ?).
  repeat split; try congruence. by rewrite Hn, Hempty, drop_nil.
Qed.

(** A reply to a pending command is never completed on the spot: the
    canceller of the command is in the table, and [run] goes to its send
    on it with the command taken out of the pending table. *)
Theorem pending_reply_meets_canceller (enableReconnection : bool)
    (ls : list label) (s : session) (in_ : frame) (resp : Command)
    (cmd : Syncer) :
  exec ls (NewRemote enableReconnection) = Some s →
  loop s = Select →
  reader s = Forwarding in_ →
  unmarshalCommand in_ (response s) = (resp, true) →
  streamMessageFactory (Type_ resp) = None →
  pending s !! Id resp = Some cmd →
  ∃ canceller s', timeoutCancellers s !! Id resp = Some canceller ∧
    step RecvInbound s = Some s' ∧
    loop s' = Cancelling (Id resp) cmd in_ canceller ∧
    pending s' = delete (Id resp) (pending s) ∧
    events s' = events s.
Proof.
  intros Hexec Hloop Hreader Hresp Hfactory Hpending.
  destruct (reachable _ _ _ Hexec) as (_ & _ & [Hcover _] & _).
  rewrite Hloop in Hcover.
  destruct (Hcover eq_refl (Id resp)) as [canceller Hcanceller]; [by eexists|].
  exists canceller. simpl. rewrite Hloop, Hreader. eexists.
  split; [done|]. split; [done|].
  unfold Session.on_inbound. simpl. rewrite Hresp. simpl.
  rewrite Hfactory, Hpending. simpl. by rewrite Hcanceller.
Qed.

(** A watcher that has not returned when [run] leaves its loop never
    returns: under every further schedule, reconnections included, it
    is a live goroutine, and [run] receives neither its timeout nor
    sends on its canceller. *)
Theorem watcher_outlives_run (enableReconnection : bool) (ls : list label)
    (s : session) (w : nat) :
  exec ls (NewRemote enableReconnection) = Some s →
  running (loop s) = false →
  live_watcher s w →
  ∀ ls' s', exec ls' s = Some s' →
    live_watcher s' w ∧
    step (RecvTimeout w) s' = None ∧ step (Cancel w) s' = None.
Proof.
  intros Hexec Hrun (wr & Hw & Hlive) ls' s' Hexec'.
  destruct (reachable _ _ _ Hexec) as (_ & _ & _ & _ & [Hdated _]).
  assert (Horphan : orphan w s).
  { exists wr. split; [done|]. split; [done|].
    destruct (Hdated _ _ Hw). split; [done|]. split; [done|].
    intros ?. congruence. }
  assert (Horphan' : orphan w s')
    by (eapply (exec_invariant (orphan w)); [apply orphan_step|done..]).
  split; [|by apply orphan_unmet].
  destruct Horphan' as (wr' & Hw' & Hlive' & _). by exists wr'.
Qed.

(** A command [run] takes from [r.outgoing] after the write pump has
    stopped is never handed to it: the only case of the inner [select]
    that is ready is the one on [writePumpStopped]; the command is
    failed with the disconnect reason in the teardown, its canceller is
    dropped, no watcher is started for it and nothing is written. *)
Theorem command_after_pump_stopped (enableReconnection : bool)
    (ls : list label) (s : session) (id : N) (command : Syncer)
    (canceller : nat) :
  exec ls (NewRemote enableReconnection) = Some s →
  loop s = Handoff id command canceller →
  writePumpStopped s = true →
  (∀ werr, step (HandOff werr) s = None) ∧
  ∃ s', step PumpStopped s = Some s' ∧
    loop s' = Draining ∧ outbound_closed s' = true ∧
    disconnected command ∈ events s' ∧
    timeoutCancellers s' !! id = None ∧
    watchers s' = watchers s ∧ written s' = written s.
Proof.
  intros Hexec Hloop Hstopped.
  destruct (reachable _ _ _ Hexec) as ([_ Hpump] & _ & _ & Hreg & _).
  destruct (Hreg _ _ _ Hloop) as [Hpending _].
  split.
  - intros werr. simpl. by rewrite Hloop, (Hpump Hstopped).
  - simpl. rewrite Hloop, Hstopped. eexists. split; [done|]. simpl.
    repeat split; try done; [|by rewrite lookup_delete_eq].
    apply elem_of_app. right.
    apply list_elem_of_fmap. exists command. split; [done|].
    apply list_elem_of_fmap. exists (id, command). split; [done|].
    by apply elem_of_map_to_list.
Qed.

(** While [reConnect] runs, it receives the queued commands in order
    and fails each with the disconnect reason; none is written, none
    enters the pending table, and [reConnect] goes on. *)
Theorem reConnect_fails_queue (s : session) (cmds rest : list Syncer) :
  loop s = Reconnecting →
  outgoing s = cmds ++ rest →
  ∃ s', exec (drain cmds) s = Some s' ∧
    loop s' = Reconnecting ∧ outgoing s' = rest ∧
    events s' = events s ++ (disconnected <$> cmds) ∧
    pending s' = pending s ∧ written s' = written s.
Proof.
  revert s. induction cmds as [|cmd cmds IH]; intros s Hloop Hout.
  - exists s. by rewrite app_nil_r.
  - unfold drain. simpl. rewrite Hloop, Hout. simpl.
    edestruct IH as (s' & Hexec & Hloop' & Hout' & Hev' & Hpen' & Hwr');
      [| |exists s'; split; [exact Hexec|]]; [done..|].
    rewrite Hev'. simpl. by rewrite <- app_assoc.
Qed.

(** Once [run] and [reConnect] have returned, no command is received,
    completed or failed any more: the commands sent on [r.outgoing]
    stay in its buffer, in the order sent, behind those left in it. *)
Theorem commands_after_exit_stay_queued (ls : list label) (s s' : session) :
  loop s = Exited →
  exec ls s = Some s' →
  loop s' = Exited ∧ events s' = events s ∧
  outgoing s' = outgoing s ++ submitted ls.
Proof.
  intros Hloop Hexec.
  by destruct (exited_exec ls s s' Hloop Hexec) as (? & ? & _ & _ & ?).
Qed.

(** *** What reaches the socket *)

Lemma texts_app (acts1 acts2 : list WritePump.action) :
  WritePump.texts (acts1 ++ acts2) = WritePump.texts acts1 ++ WritePump.texts acts2.
Proof. apply omap_app. Qed.

Lemma written_once_step sent l (s s' : session) :
  written_once Marshal sent s → step l s = Some s' →
  written_once Marshal (sent ++ submitted [l]) s'.
Proof.
  unfold written_once. intros (taken & Hsent & Hsub) Hstep.
  step_cases Hstep.
  all: rewrite ?app_nil_r, ?texts_app; simpl; rewrite ?app_nil_r.
  all: try (exists taken; split; [done|]; done).
  all: try destruct Hsub as (before & -> & Hsub).
  all: match goal with
       | |- ∃ t, ?a ++ ?x :: ?l = t ++ ?l ∧ _ =>
           exists (a ++ [x]); split; [by rewrite <- app_assoc|]
       | |- ∃ t, (?a ++ ?o) ++ ?c = t ++ ?o ++ ?c ∧ _ =>
           exists a; split; [by rewrite <- app_assoc|]
       | |- ∃ t, ?a ++ ?o = t ++ ?o ∧ _ => exists a; split; [done|]
       | H : outgoing _ = [] |- ∃ t, ?a = t ++ outgoing _ ∧ _ =>
           exists a; split; [by rewrite H, app_nil_r|]
       end.
  all: try done.
  all: try match goal with
           | |- ∃ b, ?x ++ [?c] = b ++ [?c] ∧ _ => exists x; split; [done|]
           end.
  all: try done.
  all: rewrite ?omap_app; simpl.
  all: try (by apply submseteq_inserts_r).
  all: try match goal with H : Marshal _ = _ |- _ => rewrite H end; simpl.
  all: try (by apply submseteq_inserts_r).
  all: try (apply submseteq_app; done).
Qed.

Lemma written_once_exec sent ls (s s' : session) :
  written_once Marshal sent s → exec ls s = Some s' →
  written_once Marshal (sent ++ submitted ls) s'.
Proof.
  revert sent s. induction ls as [|l ls IH]; intros sent s Hinv Hexec.
  - simplify_eq/=. by rewrite app_nil_r.
  - simpl in Hexec. destruct (step l s) as [s1|] eqn:Hstep; [|done].
    change (l :: ls) with ([l] ++ ls). unfold submitted.
    rewrite omap_app, app_assoc. apply (IH _ s1); [|done].
    by eapply written_once_step.
Qed.

(** Under every schedule, the text frames written to the connections
    are, counted with their multiplicities, among the serializations of
    the commands sent on [r.outgoing]: nothing is written that was not
    submitted, and no command is written more often than it was
    submitted; in particular none is sent again after a reconnection.
    (In which order the pumps of two connections write is not part of
    the statement; the order in which one pump writes is a property of
    [writePump].) *)
Theorem commands_written_at_most_once (enableReconnection : bool)
    (ls : list label) (s : session) :
  exec ls (NewRemote enableReconnection) = Some s →
  WritePump.texts (written s) ⊆+ omap Marshal (submitted ls).
Proof.
  intros Hexec.
  destruct (written_once_exec [] ls (NewRemote enableReconnection) s)
    as (taken & Hsent & Hsub);
    [exists []; split; [done|apply submseteq_nil_l]|done|].
  simpl in Hsent. rewrite Hsent, omap_app.
  destruct (loop s); try (by apply submseteq_inserts_r).
  destruct Hsub as (before & -> & Hsub). rewrite omap_app.
  by do 2 apply submseteq_inserts_r.
Qed.

(** *** Every command taken is completed once *)

Lemma settled_step id l (s s' : session) :
  (∀ in_ cmd, SyncerId (unmarshalSyncer in_ cmd).1 = SyncerId cmd) →
  keyed s →
  outstanding id s ≤ 1 →
  step l s = Some s' →
  outstanding id s' + completions id (events s') =
    outstanding id s + completions id (events s) + submissions SyncerId id [l].
Proof.
  intros Hcodec [Hpending Hloop] Hone Hstep.
  assert (Hdeleted : ∀ X k c, delete X (pending s) !! k = Some c → SyncerId c = k)
    by (intros X k c [_ Hk]%lookup_delete_Some; by eapply Hpending).
  set (bound := λ s' : session,
         outstanding id s' + completions id (events s') =
           outstanding id s + completions id (events s) +
           submissions SyncerId id [l]).
  change (bound s'). step_cases Hstep; subst bound; cbv beta;
    unfold Session.outstanding, Session.queued, submissions in *; simpl.
  all: repeat match goal with
              | H : outgoing _ = _ |- _ => rewrite H in *
              | H : loop _ = _ |- _ => rewrite H in *
              | H : unmarshalSyncer ?f ?c = (?c', _) |- _ =>
                  let E := fresh in
                  pose proof (Hcodec f c) as E; rewrite H in E; simpl in E;
                  clear H
              end; simpl in *.
  all: rewrite ?sum_list_with_app, ?completions_app,
         ?completions_disconnected by (done || apply Hdeleted);
       rewrite ?lookup_insert, ?lookup_delete, ?lookup_empty; simpl.
  all: repeat match goal with
              | H : pending _ !! ?k = Some ?c |- _ =>
                  lazymatch goal with
                  | _ : SyncerId c = k |- _ => fail
                  | _ => pose proof (Hpending k c H)
                  end
              | Hl : ∀ id cmd in_ c, Cancelling _ _ _ _ = Cancelling id cmd in_ c → _
                |- _ => pose proof (Hl _ _ _ _ eq_refl); clear Hl
              end.
  all: repeat match goal with
              | |- context [(?a =? ?b)%N] => destruct (N.eqb_spec a b)
              | H : context [(?a =? ?b)%N] |- _ => destruct (N.eqb_spec a b)
              end; subst.
  all: repeat case_decide; subst; try done.
  all: repeat match goal with
              | H : pending _ !! _ = _ |- _ => rewrite H in *
              end.
  all: repeat case_match; try lia; try congruence.
Qed.

Lemma settled_exec id ls (s s' : session) :
  (∀ in_ cmd, SyncerId (unmarshalSyncer in_ cmd).1 = SyncerId cmd) →
  keyed s →
  outstanding id s + completions id (events s) + submissions SyncerId id ls ≤ 1 →
  exec ls s = Some s' →
  outstanding id s' + completions id (events s') =
    outstanding id s + completions id (events s) + submissions SyncerId id ls.
Proof.
  intros Hcodec. revert s.
  induction ls as [|l ls IH]; intros s Hkeyed Hone Hexec.
  - simplify_eq/=. unfold submissions. simpl. lia.
  - simpl in Hexec. destruct (step l s) as [s1|] eqn:Hstep; [|done].
    change (l :: ls) with ([l] ++ ls) in *. unfold submissions in *.
    rewrite sum_list_with_app in *.
    assert (Hfew : outstanding id s ≤ 1) by lia.
    pose proof (settled_step id l s s1 Hcodec Hkeyed Hfew Hstep) as Hstep1.
    unfold submissions in Hstep1.
    rewrite (IH s1); [lia|by eapply keyed_step|lia|done].
Qed.

(** Exactly-once completion, where it holds: when decoding a reply onto
    a command leaves its id alone and at most one command of an id is
    submitted, that command is at every moment either in [r.outgoing],
    or with the running [run] (in its pending table or being
    completed), or completed, by one call of [Done] or [Fail]; so once
    [run] has left its loop, every command it took from [r.outgoing]
    has been completed exactly once. *)
Theorem taken_command_completed_once (enableReconnection : bool) (id : N)
    (ls : list label) (s : session) :
  (∀ in_ cmd, SyncerId (unmarshalSyncer in_ cmd).1 = SyncerId cmd) →
  submissions SyncerId id ls ≤ 1 →
  exec ls (NewRemote enableReconnection) = Some s →
  outstanding id s + completions id (events s) = submissions SyncerId id ls ∧
  (running (loop s) = false →
   queued SyncerId id (outgoing s) + completions id (events s) =
     submissions SyncerId id ls).
Proof.
  intros Hcodec Hone Hexec.
  set (s0 := NewRemote enableReconnection : session) in *.
  assert (Hempty : pending s0 = ∅) by done.
  assert (Hkeyed : keyed s0).
  { split; [intros k c Hk|done]. by rewrite Hempty, lookup_empty in Hk. }
  assert (Hzero : outstanding id s0 + completions id (events s0) = 0).
  { unfold Session.outstanding. rewrite Hempty, lookup_empty. done. }
  pose proof (settled_exec id ls s0 s Hcodec Hkeyed) as Hsettled.
  rewrite Hzero in Hsettled. specialize (Hsettled Hone Hexec).
  simpl in Hsettled.
  split; [done|]. intros Hrun. rewrite <- Hsettled.
  unfold Session.outstanding. rewrite Hrun.
  destruct (loop s); try done; lia.
Qed.

End SessionFacts.

(** C6, violated by the code: the header the frames are decoded into
    lives across the iterations of the loop ([var response Command],
    before the [for]), and decoding leaves the fields a frame does not
    carry as the frame before left them.  The reply to a pending
    command, an envelope with an id and no type field (no factory is
    registered for the empty type), is routed by its id when it is the
    first frame; read after a push, it is routed by the type of the
    push: it is sent on [Incoming] as a stream message, and the command
    it answers stays in the pending table, neither completed nor
    failed. *)
Theorem reply_after_push_routed_as_stream :
  let step := Session.step Toy.SyncerId Toy.unmarshalEnvelope
                Toy.streamMessageFactory Toy.unmarshalSyncer Toy.Marshal in
  let exec := Session.exec Toy.SyncerId Toy.unmarshalEnvelope
                Toy.streamMessageFactory Toy.unmarshalSyncer Toy.Marshal in
  Toy.unmarshalEnvelope "reply" Session.zero =
    ({| Session.Id := 5; Session.Type_ := "" |}, true) ∧
  Toy.streamMessageFactory "" = None ∧
  (∃ s s', exec (Session.reply_in_time 5%N "reply") (Session.NewRemote false)
             = Some s ∧
     Session.pending s !! 5%N = Some 5%N ∧
     Session.reader s = Session.Forwarding "reply" ∧
     step Session.RecvInbound s = Some s' ∧
     Session.loop s' = Session.Cancelling 5 5%N "reply" 0 ∧
     Session.pending s' !! 5%N = None) ∧
  (∃ s s', exec (Session.reply_after_push 5%N "ledgerClosed" "reply")
             (Session.NewRemote false) = Some s ∧
     Session.pending s !! 5%N = Some 5%N ∧
     Session.reader s = Session.Forwarding "reply" ∧
     step Session.RecvInbound s = Some s' ∧
     Session.loop s' = Session.SendIncoming "reply" ∧
     Session.pending s' !! 5%N = Some 5%N ∧
     Session.events s' = []).
Proof.
  intros step exec. split; [reflexivity|]. split; [reflexivity|].
  subst step exec. split.
  - destruct (Session.exec Toy.SyncerId Toy.unmarshalEnvelope
                Toy.streamMessageFactory Toy.unmarshalSyncer Toy.Marshal
                (Session.reply_in_time 5%N "reply")
                (Session.NewRemote false)) as [s|] eqn:Hexec;
      [|discriminate Hexec].
    vm_compute in Hexec. injection Hexec as <-.
    eexists _, _. split; [reflexivity|]. split; [reflexivity|].
    split; [reflexivity|]. split; [vm_compute; reflexivity|].
    split; reflexivity.
  - destruct (Session.exec Toy.SyncerId Toy.unmarshalEnvelope
                Toy.streamMessageFactory Toy.unmarshalSyncer Toy.Marshal
                (Session.reply_after_push 5%N "ledgerClosed" "reply")
                (Session.NewRemote false)) as [s|] eqn:Hexec;
      [|discriminate Hexec].
    vm_compute in Hexec. injection Hexec as <-.
    eexists _, _. split; [reflexivity|]. split; [reflexivity|].
    split; [reflexivity|]. split; [vm_compute; reflexivity|].
    split; [reflexivity|]. split; reflexivity.
Qed.

Lemma timeout_fires_witness :
  let s := Session.set_watchers
             [{| Session.commandID := 1; Session.timeoutCanceller := 0;
                 Session.timeout := 0; Session.at_ := Session.Firing |}]
             (Session.set_pending {[1%N := 1%N]} (Session.NewRemote false)) in
  ∃ s', Toy.step (Session.RecvTimeout 0) s = Some s' ∧
    Session.pending s' = ∅ ∧
    Session.events s' = [Session.Fail 1%N "command timed out"] ∧
    Session.loop s' = Session.Draining.
Proof.
  intros s.
  destruct (timeout_fires Toy.SyncerId Toy.unmarshalCommand
              Toy.streamMessageFactory Toy.unmarshalSyncer Toy.Marshal s 0
              {| Session.commandID := 1; Session.timeoutCanceller := 0;
                 Session.timeout := 0; Session.at_ := Session.Firing |})
    as (s' & Hstep & Hcase); [reflexivity..|].
  exists s'. split; [exact Hstep|].
  change (Session.pending s !! 1%N) with (Some 1%N) in Hcase.
  destruct Hcase as (Hpending & Hevents & Hloop & _).
  split; [|split; [|exact Hloop]].
  - rewrite Hpending. apply delete_singleton_eq.
  - rewrite Hevents.
    change (Session.pending s) with ({[1%N := 1%N]} : gmap N N).
    change (Session.commandID _) with 1%N.
    by rewrite delete_singleton_eq, map_to_list_empty.
Defined.

Lemma inbound_routing_witness :
  let s := Session.set_reader (Session.Forwarding "ledgerClosed")
             (Session.set_pending {[0%N := 7%N]} (Session.NewRemote false)) in
  Session.pending s !! 0%N = Some 7%N ∧
  ∃ s', Toy.step Session.RecvInbound s = Some s' ∧
    Session.loop s' = Session.SendIncoming "ledgerClosed" ∧
    Session.pending s' = Session.pending s ∧
    Session.events s' = [].
Proof.
  intros s. split; [reflexivity|].
  destruct (inbound_routing Toy.SyncerId Toy.unmarshalCommand
              Toy.streamMessageFactory Toy.unmarshalSyncer Toy.Marshal s
              "ledgerClosed" {| Session.Id := 0; Session.Type_ := "ledgerClosed" |})
    as (s' & Hstep & _ & Hcase); [reflexivity..|].
  exists s'. split; [exact Hstep|].
  change (Toy.streamMessageFactory _) with (Some (λ in_ : frame, Some in_))
    in Hcase.
  cbv beta iota in Hcase.
  destruct Hcase as (Hpending & _ & Hloop & Hevents & _).
  split; [exact Hloop|]. split; [exact Hpending|exact Hevents].
Defined.

Lemma teardown_witness :
  let s := Session.set_outgoing_closed true
             (Session.set_pending {[1%N := 1%N]} (Session.NewRemote false)) in
  ∃ s', Toy.step Session.RecvOutgoing s = Some s' ∧
    Session.loop s' = Session.Draining ∧
    Session.outbound_closed s' = true ∧
    Session.Fail 1%N "ws: server disconnected" ∈ Session.events s'.
Proof.
  intros s.
  destruct (Toy.step Session.RecvOutgoing s) as [s'|] eqn:Hstep;
    [|discriminate Hstep].
  assert (Hloop : Session.loop s' = Session.Draining)
    by (injection Hstep as <-; reflexivity).
  assert (Hpending : Session.pending s' !! 1%N = Some 1%N)
    by (injection Hstep as <-; reflexivity).
  exists s'. split; [reflexivity|]. split; [exact Hloop|].
  destruct (proj1 (teardown Toy.SyncerId Toy.unmarshalCommand
                     Toy.streamMessageFactory Toy.unmarshalSyncer Toy.Marshal)
              Session.RecvOutgoing s s' Hstep) as (Hclosed & Hfailed & _);
    [discriminate|exact Hloop|].
  split; [exact Hclosed|]. exact (Hfailed 1%N 1%N Hpending).
Defined.

Lemma cancel_send_blocks_forever_witness :
  ∃ s, Toy.exec (Session.reply_after_timer 1%N "x") (Session.NewRemote false)
         = Some s ∧
    Session.loop s = Session.Cancelling 1 1%N "x" 0 ∧
    (∀ w, Toy.step (Session.Cancel w) s = None) ∧
    ∀ ls s', Toy.exec ls s = Some s' →
      Session.loop s' = Session.Cancelling 1 1%N "x" 0.
Proof.
  apply (cancel_send_blocks_forever Toy.SyncerId Toy.unmarshalCommand
           Toy.streamMessageFactory Toy.unmarshalSyncer Toy.Marshal
           false 1%N "x" {| Session.Id := 1; Session.Type_ := "response" |});
    reflexivity.
Defined.

Lemma stalled_command_never_completed_witness :
  ∃ s, Toy.exec (Session.reply_after_timer 1%N "x") (Session.NewRemote false)
         = Some s ∧
    ∀ ls s', Toy.exec ls s = Some s' →
      Session.completions Toy.SyncerId 1 (Session.events s') = 0.
Proof.
  apply (stalled_command_never_completed Toy.SyncerId Toy.unmarshalCommand
           Toy.streamMessageFactory Toy.unmarshalSyncer Toy.Marshal
           false 1%N "x" {| Session.Id := 1; Session.Type_ := "response" |});
    reflexivity.
Defined.

Lemma completed_at_most_once_witness :
  let ls := [Session.Submit 1%N; Session.RecvOutgoing; Session.HandOff false;
             Session.Read (Some "x"); Session.RecvInbound; Session.Cancel 0] in
  ∃ s, Toy.exec ls (Session.NewRemote false) = Some s ∧
    Session.events s = [Session.Done 1%N] ∧
    Session.completions Toy.SyncerId 1 (Session.events s) ≤
      Session.submissions Toy.SyncerId 1 ls.
Proof.
  intros ls. unfold Toy.exec.
  destruct (Session.exec Toy.SyncerId Toy.unmarshalCommand
              Toy.streamMessageFactory Toy.unmarshalSyncer Toy.Marshal ls
              (Session.NewRemote false)) as [s|] eqn:Hexec;
    [|discriminate Hexec].
  exists s. split; [reflexivity|].
  split; [vm_compute in Hexec; by injection Hexec as <-|].
  exact (completed_at_most_once Toy.SyncerId Toy.unmarshalCommand
           Toy.streamMessageFactory Toy.unmarshalSyncer Toy.Marshal
           false 1%N ls s (λ _ _, eq_refl) Hexec).
Defined.

Lemma Close_returns_after_run_witness :
  ∃ s, Toy.exec (Session.close_with_command_in_flight 1%N)
         (Session.NewRemote false) = Some s ∧
    Session.loop s = Session.Exited ∧
    Session.reader s = Session.ReaderReturned ∧
    Session.outbound_closed s = true ∧
    Session.Incoming_closed s = true ∧ Session.Incoming s = [] ∧
    ∀ ls' s', Toy.exec ls' s = Some s' →
      Session.loop s' = Session.Exited ∧ Session.Incoming s' = [] ∧
      Session.Incoming_closed s' = true ∧
      Session.events s' = Session.events s.
Proof.
  unfold Toy.exec.
  destruct (Session.exec Toy.SyncerId Toy.unmarshalCommand
              Toy.streamMessageFactory Toy.unmarshalSyncer Toy.Marshal
              (Session.close_with_command_in_flight 1%N)
              (Session.NewRemote false)) as [s|] eqn:Hexec;
    [|discriminate Hexec].
  exists s. split; [reflexivity|].
  assert (Hcloser : Session.closer s = Session.CloseReturned)
    by (vm_compute in Hexec; by injection Hexec as <-).
  exact (Close_returns_after_run Toy.SyncerId Toy.unmarshalCommand
           Toy.streamMessageFactory Toy.unmarshalSyncer Toy.Marshal
           false _ s Hexec Hcloser).
Defined.

Lemma pending_reply_meets_canceller_witness :
  ∃ s, Toy.exec (Session.reply_in_time 1%N "x") (Session.NewRemote false)
         = Some s ∧
    ∃ canceller s', Session.timeoutCancellers s !! 1%N = Some canceller ∧
      Toy.step Session.RecvInbound s = Some s' ∧
      Session.loop s' = Session.Cancelling 1 1%N "x" canceller ∧
      Session.pending s' = delete 1%N (Session.pending s) ∧
      Session.events s' = Session.events s.
Proof.
  unfold Toy.exec, Toy.step.
  destruct (Session.exec Toy.SyncerId Toy.unmarshalCommand
              Toy.streamMessageFactory Toy.unmarshalSyncer Toy.Marshal
              (Session.reply_in_time 1%N "x")
              (Session.NewRemote false)) as [s|] eqn:Hexec;
    [|discriminate Hexec].
  exists s. split; [reflexivity|].
  assert (Hs : Session.loop s = Session.Select ∧
               Session.reader s = Session.Forwarding "x" ∧
               Session.response s = Session.zero ∧
               Session.pending s !! 1%N = Some 1%N)
    by (vm_compute in Hexec; by injection Hexec as <-).
  destruct Hs as (Hloop & Hreader & Hresponse & Hpending).
  apply (pending_reply_meets_canceller Toy.SyncerId Toy.unmarshalCommand
           Toy.streamMessageFactory Toy.unmarshalSyncer Toy.Marshal
           false _ s "x" {| Session.Id := 1; Session.Type_ := "response" |}
           1%N Hexec Hloop Hreader).
  - by rewrite Hresponse.
  - reflexivity.
  - exact Hpending.
Defined.

Lemma watcher_outlives_run_witness :
  ∃ s, Toy.exec (Session.connection_lost 1%N) (Session.NewRemote true)
         = Some s ∧
    Session.loop s = Session.Draining ∧
    ∀ ls' s', Toy.exec ls' s = Some s' →
      Session.live_watcher s' 0 ∧
      Toy.step (Session.RecvTimeout 0) s' = None ∧
      Toy.step (Session.Cancel 0) s' = None.
Proof.
  unfold Toy.exec, Toy.step.
  destruct (Session.exec Toy.SyncerId Toy.unmarshalCommand
              Toy.streamMessageFactory Toy.unmarshalSyncer Toy.Marshal
              (Session.connection_lost 1%N)
              (Session.NewRemote true)) as [s|] eqn:Hexec;
    [|discriminate Hexec].
  exists s. split; [reflexivity|].
  assert (Hs : Session.loop s = Session.Draining ∧
               Session.watchers s !! 0 =
                 Some {| Session.commandID := 1; Session.timeoutCanceller := 0;
                         Session.timeout := 0; Session.at_ := Session.Waiting |})
    by (vm_compute in Hexec; by injection Hexec as <-).
  destruct Hs as [Hloop Hw]. split; [exact Hloop|].
  apply (watcher_outlives_run Toy.SyncerId Toy.unmarshalCommand
           Toy.streamMessageFactory Toy.unmarshalSyncer Toy.Marshal
           true _ s 0 Hexec).
  - by rewrite Hloop.
  - eexists. split; [exact Hw|discriminate].
Defined.

Lemma command_after_pump_stopped_witness :
  ∃ s, Toy.exec (Session.submit_after_pump_failed 1%N) (Session.NewRemote false)
         = Some s ∧
    (∀ werr, Toy.step (Session.HandOff werr) s = None) ∧
    ∃ s', Toy.step Session.PumpStopped s = Some s' ∧
      Session.loop s' = Session.Draining ∧
      Session.outbound_closed s' = true ∧
      Session.Fail 1%N "ws: server disconnected" ∈ Session.events s' ∧
      Session.timeoutCancellers s' !! 1%N = None ∧
      Session.watchers s' = Session.watchers s ∧
      Session.written s' = Session.written s.
Proof.
  unfold Toy.exec, Toy.step.
  destruct (Session.exec Toy.SyncerId Toy.unmarshalCommand
              Toy.streamMessageFactory Toy.unmarshalSyncer Toy.Marshal
              (Session.submit_after_pump_failed 1%N)
              (Session.NewRemote false)) as [s|] eqn:Hexec;
    [|discriminate Hexec].
  exists s. split; [reflexivity|].
  assert (Hs : Session.loop s = Session.Handoff 1 1%N 0 ∧
               Session.writePumpStopped s = true)
    by (vm_compute in Hexec; by injection Hexec as <-).
  destruct Hs as [Hloop Hstopped].
  exact (command_after_pump_stopped Toy.SyncerId Toy.unmarshalCommand
           Toy.streamMessageFactory Toy.unmarshalSyncer Toy.Marshal
           false _ s 1%N 1%N 0 Hexec Hloop Hstopped).
Defined.

Lemma reConnect_fails_queue_witness :
  let s := Session.set_outgoing [1%N; 2%N; 3%N]
             (Session.set_loop Session.Reconnecting (Session.NewRemote true)) in
  ∃ s', Toy.exec (Session.drain [1%N; 2%N]) s = Some s' ∧
    Session.loop s' = Session.Reconnecting ∧
    Session.outgoing s' = [3%N] ∧
    Session.events s' =
      Session.events s ++
        ((λ c, Session.Fail c "ws: server disconnected") <$> [1%N; 2%N]) ∧
    Session.pending s' = Session.pending s ∧
    Session.written s' = Session.written s.
Proof.
  intros s. unfold Toy.exec.
  apply (reConnect_fails_queue Toy.SyncerId Toy.unmarshalCommand
           Toy.streamMessageFactory Toy.unmarshalSyncer Toy.Marshal
           s [1%N; 2%N] [3%N]); reflexivity.
Defined.

Lemma commands_after_exit_stay_queued_witness :
  let ls := [Session.Submit 1%N; Session.PumpTick 0 false; Session.Submit 2%N] in
  ∃ s s', Toy.exec Session.disconnect (Session.NewRemote false) = Some s ∧
    Toy.exec ls s = Some s' ∧
    Session.loop s' = Session.Exited ∧
    Session.events s' = Session.events s ∧
    Session.outgoing s' = Session.outgoing s ++ [1%N; 2%N].
Proof.
  intros ls. unfold Toy.exec.
  destruct (Session.exec Toy.SyncerId Toy.unmarshalCommand
              Toy.streamMessageFactory Toy.unmarshalSyncer Toy.Marshal
              Session.disconnect (Session.NewRemote false)) as [s|] eqn:Hexec;
    [|discriminate Hexec].
  assert (Hloop : Session.loop s = Session.Exited)
    by (vm_compute in Hexec; by injection Hexec as <-).
  destruct (Session.exec Toy.SyncerId Toy.unmarshalCommand
              Toy.streamMessageFactory Toy.unmarshalSyncer Toy.Marshal
              ls s) as [s'|] eqn:Hexec';
    [|vm_compute in Hexec; injection Hexec as <-; discriminate Hexec'].
  exists s, s'. split; [reflexivity|]. split; [exact Hexec'|].
  exact (commands_after_exit_stay_queued Toy.SyncerId Toy.unmarshalCommand
           Toy.streamMessageFactory Toy.unmarshalSyncer Toy.Marshal
           ls s s' Hloop Hexec').
Defined.

Lemma streamLedgerData_follows_markers_witness :
  let pages := [([{| StreamLedgerData.Data := "0a";
                     StreamLedgerData.Index := "FF" |}], 7)] in
  let slices := [[Some [Byte.x0a; Byte.xff]]] in
  let lastStates := [{| StreamLedgerData.Data := "";
                        StreamLedgerData.Index := "" |}] in
  let badStates := [{| StreamLedgerData.Data := "0A";
                       StreamLedgerData.Index := "0B" |};
                    {| StreamLedgerData.Data := "0";
                       StreamLedgerData.Index := "" |}] in
  (let d := StreamLedgerData.streamLedgerData Toy.newBinaryLedgerDataCommand
              Toy.ReadLedgerEntry "closed"
              ((StreamLedgerData.more <$> pages) ++
               StreamLedgerData.page lastStates None :: []) 2 in
   StreamLedgerData.submitted d =
     Toy.newBinaryLedgerDataCommand "closed" <$> (None :: (Some <$> pages.*2)) ∧
   StreamLedgerData.yielded d = slices ++ [[None]] ∧
   StreamLedgerData.state d = StreamLedgerData.Closed) ∧
  (let d := StreamLedgerData.streamLedgerData Toy.newBinaryLedgerDataCommand
              Toy.ReadLedgerEntry "closed"
              ((StreamLedgerData.more <$> pages) ++
               StreamLedgerData.page badStates (Some 9) :: []) 2 in
   length (StreamLedgerData.submitted d) = 2 ∧
   StreamLedgerData.yielded d = slices ∧
   StreamLedgerData.state d = StreamLedgerData.Aborted).
Proof.
  intros pages slices lastStates badStates.
  apply (streamLedgerData_follows_markers Toy.newBinaryLedgerDataCommand
           Toy.ReadLedgerEntry "closed" pages slices lastStates badStates
           [None] (Some 9) [] 2).
  - repeat constructor.
  - reflexivity.
  - reflexivity.
  - simpl. lia.
Defined.

Lemma commands_written_at_most_once_witness :
  ∃ s, Toy.exec (Session.two_commands 0%N 1%N) (Session.NewRemote true)
         = Some s ∧
    WritePump.texts (Session.written s) = ["{}"] ∧
    WritePump.texts (Session.written s) ⊆+
      omap Toy.Marshal (Session.submitted (Session.two_commands 0%N 1%N)).
Proof.
  unfold Toy.exec.
  destruct (Session.exec Toy.SyncerId Toy.unmarshalCommand
              Toy.streamMessageFactory Toy.unmarshalSyncer Toy.Marshal
              (Session.two_commands 0%N 1%N)
              (Session.NewRemote true)) as [s|] eqn:Hexec;
    [|discriminate Hexec].
  exists s. split; [reflexivity|].
  split; [vm_compute in Hexec; by injection Hexec as <-|].
  exact (commands_written_at_most_once Toy.SyncerId Toy.unmarshalCommand
           Toy.streamMessageFactory Toy.unmarshalSyncer Toy.Marshal
           true _ s Hexec).
Defined.

Lemma taken_command_completed_once_witness :
  let ls := Session.connection_lost 1%N in
  ∃ s, Toy.exec ls (Session.NewRemote false) = Some s ∧
    Session.events s =
      [Session.Errorln; Session.Fail 1%N "ws: server disconnected"] ∧
    Session.outstanding Toy.SyncerId 1 s +
      Session.completions Toy.SyncerId 1 (Session.events s) =
      Session.submissions Toy.SyncerId 1 ls ∧
    (Session.running (Session.loop s) = false →
     Session.queued Toy.SyncerId 1 (Session.outgoing s) +
       Session.completions Toy.SyncerId 1 (Session.events s) =
       Session.submissions Toy.SyncerId 1 ls).
Proof.
  intros ls. unfold Toy.exec.
  destruct (Session.exec Toy.SyncerId Toy.unmarshalCommand
              Toy.streamMessageFactory Toy.unmarshalSyncer Toy.Marshal ls
              (Session.NewRemote false)) as [s|] eqn:Hexec;
    [|discriminate Hexec].
  exists s. split; [reflexivity|].
  split; [vm_compute in Hexec; by injection Hexec as <-|].
  apply (taken_command_completed_once Toy.SyncerId Toy.unmarshalCommand
           Toy.streamMessageFactory Toy.unmarshalSyncer Toy.Marshal
           false 1%N ls s (λ _ _, eq_refl)).
  - vm_compute. lia.
  - exact Hexec.
Defined.
